(** * Scripting core of the emulator: engine bridge, memory-region adapters,
      memory-map lifecycle and savestate binding defaults.

    A shallow embedding of [src/core/scripting.c].  The file has three parts:
    the model (definitions transcribed from the C source), a small concrete
    machine and concrete engines used to run the model, and the theorems. *)

From stdpp Require Import gmap strings list fin_maps.
From Stdlib Require Import ZArith Lia Permutation.

Local Open Scope Z_scope.

(* ===================================================================== *)
(** * Part I: the model                                                   *)
(* ===================================================================== *)

(** ** Unsigned 32-bit arithmetic

    [uint32_t] values are integers in [[0, 2^32)]; every arithmetic
    operation of the source on them wraps around. *)

Module U32.

Definition modulus : Z := 2 ^ 32.

Definition in_range (x : Z) : Prop := 0 ≤ x < modulus.

Definition wrap (x : Z) : Z := x mod modulus.

Definition add (a b : Z) : Z := wrap (a + b).

Definition sub (a b : Z) : Z := wrap (a - b).

(** Conversion of a [uint32_t] to [int] (two's complement), as done by
    [int segment = address / segmentSize]. *)
Definition to_int (x : Z) : Z := if decide (x < 2 ^ 31) then x else x - modulus.

End U32.

(** The narrower unsigned types of the write operations: a value passed as
    [uint8_t] or [uint16_t] keeps its low 8 or 16 bits. *)
Definition to_uint8 (x : Z) : Z := x mod 2 ^ 8.

Definition to_uint16 (x : Z) : Z := x mod 2 ^ 16.

(** ** The machine as seen by the adapters

    [struct mCoreMemoryBlock]: only the fields the scripting core reads.
    A [segmentStart] of [0] means that the block has no banked part. *)

Record mCoreMemoryBlock : Type := MkBlock {
  internalName : string;
  start : Z;
  end_ : Z;
  segmentStart : Z
}.

(** A block whose fields are [uint32_t] values. *)
Definition block_in_range (b : mCoreMemoryBlock) : Prop :=
  U32.in_range (start b) ∧ U32.in_range (end_ b) ∧ U32.in_range (segmentStart b).

(** [struct mCore]: the accessors used here, as functions of the machine
    state [M].  A raw accessor takes the physical address and then the bank
    index ([segment]); a raw read observes the state, a raw write yields the
    next state. *)
Record mCore (M : Type) : Type := MkCore {
  rawRead8 : M → Z → Z → Z;
  rawRead16 : M → Z → Z → Z;
  rawRead32 : M → Z → Z → Z;
  rawWrite8 : M → Z → Z → Z → M;
  rawWrite16 : M → Z → Z → Z → M;
  rawWrite32 : M → Z → Z → Z → M;
  listMemoryBlocks : M → list mCoreMemoryBlock
}.

Arguments MkCore {M}.
Arguments rawRead8 {M}.
Arguments rawRead16 {M}.
Arguments rawRead32 {M}.
Arguments rawWrite8 {M}.
Arguments rawWrite16 {M}.
Arguments rawWrite32 {M}.
Arguments listMemoryBlocks {M}.

(** ** Memory region adapter *)

Record mScriptMemoryAdapter (M : Type) : Type := MkMemoryAdapter {
  core : mCore M;
  block : mCoreMemoryBlock
}.

Arguments MkMemoryAdapter {M}.
Arguments core {M}.
Arguments block {M}.

(** The pair [(segmentSize, segmentStart)] computed by the macro
    [CALCULATE_SEGMENT_INFO].  The local [segmentStart] of the macro (written
    [segmentStart'] here, the field has the plain name) is the size of the
    fixed prefix, [block.segmentStart - block.start]. *)
Definition CALCULATE_SEGMENT_INFO {M} (adapter : mScriptMemoryAdapter M) : Z * Z :=
  let segmentSize := U32.sub (end_ (block adapter)) (start (block adapter)) in
  let segmentStart' := U32.sub (segmentStart (block adapter)) (start (block adapter)) in
  if decide (segmentStart (block adapter) ≠ 0)
  then (U32.sub segmentSize segmentStart', segmentStart')
  else (segmentSize, segmentStart').

(** [CALCULATE_SEGMENT_ADDRESS]: the pair [(segmentAddress, segment)].  The
    macro divides by [segmentSize]; a zero divisor is undefined behaviour in
    C and is [None] here. *)
Definition CALCULATE_SEGMENT_ADDRESS {M} (adapter : mScriptMemoryAdapter M)
    (info : Z * Z) (address : Z) : option (Z * Z) :=
  let '(segmentSize, segmentStart') := info in
  if decide (segmentSize = 0) then None
  else
    let segmentAddress := address mod segmentSize in
    let segment := U32.to_int (address / segmentSize) in
    let segmentAddress := U32.add segmentAddress (start (block adapter)) in
    if decide (segmentStart (block adapter) ≠ 0 ∧ segment ≠ 0)
    then Some (U32.add segmentAddress segmentStart', segment)
    else Some (segmentAddress, segment).

Definition mScriptMemoryAdapterRead8 {M} (adapter : mScriptMemoryAdapter M)
    (m : M) (address : Z) : option Z :=
  let info := CALCULATE_SEGMENT_INFO adapter in
  '(segmentAddress, segment) ← CALCULATE_SEGMENT_ADDRESS adapter info address;
  Some (rawRead8 (core adapter) m segmentAddress segment).

Definition mScriptMemoryAdapterRead16 {M} (adapter : mScriptMemoryAdapter M)
    (m : M) (address : Z) : option Z :=
  let info := CALCULATE_SEGMENT_INFO adapter in
  '(segmentAddress, segment) ← CALCULATE_SEGMENT_ADDRESS adapter info address;
  Some (rawRead16 (core adapter) m segmentAddress segment).

Definition mScriptMemoryAdapterRead32 {M} (adapter : mScriptMemoryAdapter M)
    (m : M) (address : Z) : option Z :=
  let info := CALCULATE_SEGMENT_INFO adapter in
  '(segmentAddress, segment) ← CALCULATE_SEGMENT_ADDRESS adapter info address;
  Some (rawRead32 (core adapter) m segmentAddress segment).

(** The loop of [mScriptMemoryAdapterReadRange]: [n] iterations remain,
    [address] is the running ([uint32_t], wrapping) offset and [values] the
    contents of the script list so far. *)
Fixpoint readRange_loop {M} (adapter : mScriptMemoryAdapter M) (m : M)
    (info : Z * Z) (n : nat) (address : Z) (values : list Z) : option (list Z) :=
  match n with
  | O => Some values
  | S n' =>
      '(segmentAddress, segment) ← CALCULATE_SEGMENT_ADDRESS adapter info address;
      readRange_loop adapter m info n' (U32.add address 1)
        (values ++ [rawRead8 (core adapter) m segmentAddress segment])
  end.

Definition mScriptMemoryAdapterReadRange {M} (adapter : mScriptMemoryAdapter M)
    (m : M) (address length : Z) : option (list Z) :=
  let info := CALCULATE_SEGMENT_INFO adapter in
  readRange_loop adapter m info (Z.to_nat length) address [].

(** The writes hand [address] and [segmentAddress], in this order, to the raw
    accessor, as the source does: [address] goes where the accessor expects
    the physical address and [segmentAddress], a [uint32_t], where it expects
    the bank index, an [int], to which it is converted.  The value has the
    width of the operation. *)
Definition mScriptMemoryAdapterWrite8 {M} (adapter : mScriptMemoryAdapter M)
    (m : M) (address value : Z) : option M :=
  let value := to_uint8 value in
  let info := CALCULATE_SEGMENT_INFO adapter in
  '(segmentAddress, segment) ← CALCULATE_SEGMENT_ADDRESS adapter info address;
  Some (rawWrite8 (core adapter) m address (U32.to_int segmentAddress) value).

Definition mScriptMemoryAdapterWrite16 {M} (adapter : mScriptMemoryAdapter M)
    (m : M) (address value : Z) : option M :=
  let value := to_uint16 value in
  let info := CALCULATE_SEGMENT_INFO adapter in
  '(segmentAddress, segment) ← CALCULATE_SEGMENT_ADDRESS adapter info address;
  Some (rawWrite16 (core adapter) m address (U32.to_int segmentAddress) value).

Definition mScriptMemoryAdapterWrite32 {M} (adapter : mScriptMemoryAdapter M)
    (m : M) (address value : Z) : option M :=
  let value := U32.wrap value in
  let info := CALCULATE_SEGMENT_INFO adapter in
  '(segmentAddress, segment) ← CALCULATE_SEGMENT_ADDRESS adapter info address;
  Some (rawWrite32 (core adapter) m address (U32.to_int segmentAddress) value).

(** The address translation shared by the seven operations: the physical
    address and the bank index an access at offset [address] resolves to. *)
Definition translate {M} (adapter : mScriptMemoryAdapter M) (address : Z) : option (Z * Z) :=
  CALCULATE_SEGMENT_ADDRESS adapter (CALCULATE_SEGMENT_INFO adapter) address.

Definition segmentSize {M} (adapter : mScriptMemoryAdapter M) : Z :=
  (CALCULATE_SEGMENT_INFO adapter).1.

(** The size of the fixed prefix, the second component of the macro's pair. *)
Definition prefix {M} (adapter : mScriptMemoryAdapter M) : Z :=
  (CALCULATE_SEGMENT_INFO adapter).2.

(** ** Engine bridge

    The engines are plugins with state of their own, and the files they are
    offered live in a file system; both are part of the host's [World].  An
    engine hook takes the world and returns its answer with the next world.
    To state which hooks a bridge operation invokes, and in which order, the
    host state also carries the [trace] of the calls made so far. *)

Inductive Event (VFile : Type) : Type :=
| EvIsScript (key : string) (result : bool)
| EvLoadScript (key : string) (result : bool)
| EvLookupSymbol (key : string) (result : bool) (out : Z)
| EvClose (vf : VFile).

Arguments EvIsScript {VFile}.
Arguments EvLoadScript {VFile}.
Arguments EvLookupSymbol {VFile}.
Arguments EvClose {VFile}.

Record Host (World VFile : Type) : Type := MkHost {
  world : World;
  trace : list (Event VFile)
}.

Arguments MkHost {World VFile}.
Arguments world {World VFile}.
Arguments trace {World VFile}.

(** [struct mScriptEngine], the hooks used by script loading and symbol
    lookup.  [lookupSymbol] receives the pointer [out]: it is given the
    current content of the cell and returns the content it leaves there. *)
Record mScriptEngine (World VFile : Type) : Type := MkEngine {
  isScript : string → VFile → World → bool * World;
  loadScript : string → VFile → World → bool * World;
  lookupSymbol : string → Z → World → bool * Z * World
}.

Arguments MkEngine {World VFile}.
Arguments isScript {World VFile}.
Arguments loadScript {World VFile}.
Arguments lookupSymbol {World VFile}.

(** The file-system calls of [mScriptBridgeLoadScript]: [VFileOpen] (with
    [O_RDONLY]) and the [close] method of the handle. *)
Record Vfs (World VFile : Type) : Type := MkVfs {
  VFileOpen : string → World → option VFile * World;
  close : VFile → World → World
}.

Arguments MkVfs {World VFile}.
Arguments VFileOpen {World VFile}.
Arguments close {World VFile}.

(** [struct mScriptBridge].  The hash table of engines is the list of its
    entries in the order in which [HashTableEnumerate] visits them; the keys
    are the engine names. *)
Record mScriptBridge (World VFile : Type) : Type := MkBridge {
  engines : list (string * mScriptEngine World VFile)
}.

Arguments MkBridge {World VFile}.
Arguments engines {World VFile}.

Record mScriptInfo (VFile : Type) : Type := MkInfo {
  info_name : string;
  info_vf : VFile;
  info_success : bool
}.

Arguments MkInfo {VFile}.
Arguments info_name {VFile}.
Arguments info_vf {VFile}.
Arguments info_success {VFile}.

(** [struct mScriptSymbol]; [sym_out] is the content of the cell [out]
    points to. *)
Record mScriptSymbol : Type := MkSymbol {
  sym_name : string;
  sym_out : Z;
  sym_success : bool
}.

(** Modelled from the spec: [HashTableEnumerate] of the table library, which
    calls the handler once on every entry, passing the user pointer along. *)
Definition HashTableEnumerate {V U : Type} (table : list (string * V))
    (handler : string → V → U → U) (user : U) : U :=
  foldl (λ u entry, handler entry.1 entry.2 u) user table.

(** The hook calls, each leaving its event in the trace. *)
Definition call_isScript {World VFile} (key : string) (se : mScriptEngine World VFile)
    (name : string) (vf : VFile) (h : Host World VFile) : bool * Host World VFile :=
  let '(result, w) := isScript se name vf (world h) in
  (result, MkHost w (trace h ++ [EvIsScript key result])).

Definition call_loadScript {World VFile} (key : string) (se : mScriptEngine World VFile)
    (name : string) (vf : VFile) (h : Host World VFile) : bool * Host World VFile :=
  let '(result, w) := loadScript se name vf (world h) in
  (result, MkHost w (trace h ++ [EvLoadScript key result])).

Definition call_lookupSymbol {World VFile} (key : string) (se : mScriptEngine World VFile)
    (name : string) (out : Z) (h : Host World VFile) : bool * Z * Host World VFile :=
  let '(result, out', w) := lookupSymbol se name out (world h) in
  (result, out', MkHost w (trace h ++ [EvLookupSymbol key result out'])).

Definition call_close {World VFile} (fs : Vfs World VFile) (vf : VFile)
    (h : Host World VFile) : Host World VFile :=
  MkHost (close fs vf (world h)) (trace h ++ [EvClose vf]).

Definition _seTryLoad {World VFile} (key : string) (se : mScriptEngine World VFile)
    (user : mScriptInfo VFile * Host World VFile) : mScriptInfo VFile * Host World VFile :=
  let '(si, h) := user in
  if negb (info_success si) then
    let '(sniffed, h) := call_isScript key se (info_name si) (info_vf si) h in
    if sniffed then
      let '(success, h) := call_loadScript key se (info_name si) (info_vf si) h in
      (MkInfo (info_name si) (info_vf si) success, h)
    else (si, h)
  else (si, h).

Definition _seLookupSymbol {World VFile} (key : string) (se : mScriptEngine World VFile)
    (user : mScriptSymbol * Host World VFile) : mScriptSymbol * Host World VFile :=
  let '(si, h) := user in
  if negb (sym_success si) then
    let '(success, out, h) := call_lookupSymbol key se (sym_name si) (sym_out si) h in
    (MkSymbol (sym_name si) out success, h)
  else (si, h).

Definition mScriptBridgeLoadScript {World VFile} (fs : Vfs World VFile)
    (sb : mScriptBridge World VFile) (name : string) (h : Host World VFile)
    : bool * Host World VFile :=
  match VFileOpen fs name (world h) with
  | (None, w) => (false, MkHost w (trace h))
  | (Some vf, w) =>
      let info := MkInfo name vf false in
      let '(info, h) := HashTableEnumerate (engines sb) _seTryLoad (info, MkHost w (trace h)) in
      let h := call_close fs vf h in
      (info_success info, h)
  end.

(** Returns the result together with the final content of the cell [out]. *)
Definition mScriptBridgeLookupSymbol {World VFile}
    (sb : mScriptBridge World VFile) (name : string) (out : Z) (h : Host World VFile)
    : bool * Z * Host World VFile :=
  let info := MkSymbol name out false in
  let '(info, h) := HashTableEnumerate (engines sb) _seLookupSymbol (info, h) in
  (sym_success info, sym_out info, h).

(** ** Script values and the weak-reference arena *)

Inductive mScriptValue (M : Type) : Type :=
| VS32 (s32 : Z)
| VMemoryAdapter (memadapter : mScriptMemoryAdapter M).

Arguments VS32 {M}.
Arguments VMemoryAdapter {M}.

(** Modelled from the spec: the weak-reference arena of the script context
    ([mScriptContextMakeWeakref], [mScriptContextClearWeakref] and
    [mScriptContextAccessWeakref] belong to the script library, which is not
    part of this file).  A weak reference is a handle into the arena; a fresh
    one is a handle that was never issued before; a handle whose referent was
    cleared resolves to absent. *)
Record mScriptContext (M : Type) : Type := MkContext {
  weakrefs : gmap N (mScriptValue M);
  nextWeakref : N
}.

Arguments MkContext {M}.
Arguments weakrefs {M}.
Arguments nextWeakref {M}.

Definition mScriptContextMakeWeakref {M} (context : mScriptContext M)
    (value : mScriptValue M) : mScriptContext M * N :=
  (MkContext (<[nextWeakref context := value]> (weakrefs context))
             (nextWeakref context + 1)%N,
   nextWeakref context).

Definition mScriptContextClearWeakref {M} (context : mScriptContext M)
    (weakref : N) : mScriptContext M :=
  MkContext (delete weakref (weakrefs context)) (nextWeakref context).

Definition mScriptContextAccessWeakref {M} (context : mScriptContext M)
    (weakref : N) : option (mScriptValue M) :=
  weakrefs context !! weakref.

(** ** Core adapter and its memory map

    [struct mScriptCoreAdapter]: the machine and the [memory] table, from the
    region name to the weak reference that stands for the region adapter.
    The script context is passed to the functions below, as in the source. *)
Record mScriptCoreAdapter (M : Type) : Type := MkCoreAdapter {
  adapter_core : mCore M;
  memory : gmap string N
}.

Arguments MkCoreAdapter {M}.
Arguments adapter_core {M}.
Arguments memory {M}.

Definition _clearMemoryMap {M} (context : mScriptContext M)
    (adapter : mScriptCoreAdapter M) (clear : bool)
    : mScriptContext M * mScriptCoreAdapter M :=
  let context :=
    foldl (λ context entry,
             if clear then mScriptContextClearWeakref context entry.2 else context)
          context (map_to_list (memory adapter)) in
  (context, MkCoreAdapter (adapter_core adapter) ∅).

(** One iteration of the loop of [_rebuildMemoryMap], for the descriptor
    [blocks[i]]. *)
Definition rebuild_step {M} (state : mScriptContext M * mScriptCoreAdapter M)
    (blocks_i : mCoreMemoryBlock) : mScriptContext M * mScriptCoreAdapter M :=
  let '(context, adapter) := state in
  let memadapter := MkMemoryAdapter (adapter_core adapter) blocks_i in
  let value := VMemoryAdapter memadapter in
  let key := internalName blocks_i in
  let '(context, weakref) := mScriptContextMakeWeakref context value in
  (context, MkCoreAdapter (adapter_core adapter) (<[key := weakref]> (memory adapter))).

Definition _rebuildMemoryMap {M} (m : M) (context : mScriptContext M)
    (adapter : mScriptCoreAdapter M) : mScriptContext M * mScriptCoreAdapter M :=
  let '(context, adapter) := _clearMemoryMap context adapter true in
  let blocks := listMemoryBlocks (adapter_core adapter) m in
  foldl rebuild_step (context, adapter) blocks.

(** What a script finds under a region name: the table entry, resolved
    through the arena. *)
Definition resolve_region {M} (context : mScriptContext M)
    (adapter : mScriptCoreAdapter M) (name : string) : option (mScriptValue M) :=
  memory adapter !! name ≫= mScriptContextAccessWeakref context.

(** The handles of the memory map were issued by the context. *)
Definition memory_issued {M} (context : mScriptContext M)
    (adapter : mScriptCoreAdapter M) : Prop :=
  ∀ name weakref, memory adapter !! name = Some weakref →
    (weakref < nextWeakref context)%N.

(** ** Savestate bindings and their default arguments *)

Section Savestate.

(** The flag constants of the serializer and the two functions bound as
    [saveStateSlot] and [loadStateSlot] are declared outside this file. *)
Context {M : Type}.
Variables SAVESTATE_ALL SAVESTATE_SAVEDATA : Z.
Variables mCoreSaveState mCoreLoadState : M → Z → Z → Z * M.

Definition mSCRIPT_NO_DEFAULT : option Z := None.

Definition mSCRIPT_MAKE_S32 (value : Z) : option Z := Some value.

Definition saveStateSlot_defaults : list (option Z) :=
  [ mSCRIPT_NO_DEFAULT; mSCRIPT_MAKE_S32 SAVESTATE_ALL ].

Definition loadStateSlot_defaults : list (option Z) :=
  [ mSCRIPT_NO_DEFAULT;
    mSCRIPT_MAKE_S32 (Z.land SAVESTATE_ALL (Z.lnot SAVESTATE_SAVEDATA)) ].

(** Modelled from the spec: a method bound with defaults takes, for every
    trailing argument the caller leaves out, the default of that position; a
    position with no default must be given. *)
Fixpoint fill_defaults (defaults : list (option Z)) (args : list Z) : option (list Z) :=
  match defaults, args with
  | [], [] => Some []
  | [], _ :: _ => None
  | _ :: defaults, a :: args => cons a <$> fill_defaults defaults args
  | Some d :: defaults, [] => cons d <$> fill_defaults defaults []
  | None :: _, [] => None
  end.

Definition saveStateSlot (m : M) (args : list Z) : option (Z * M) :=
  match fill_defaults saveStateSlot_defaults args with
  | Some [slot; flags] => Some (mCoreSaveState m slot flags)
  | _ => None
  end.

Definition loadStateSlot (m : M) (args : list Z) : option (Z * M) :=
  match fill_defaults loadStateSlot_defaults args with
  | Some [slot; flags] => Some (mCoreLoadState m slot flags)
  | _ => None
  end.

End Savestate.

(* ===================================================================== *)
(** * Part II: a concrete machine, file system and engines                *)
(* ===================================================================== *)

(** ** A banked memory

    The machine state is a finite map from (bank index, physical address) to
    the byte stored there; unwritten cells read as zero.  Wider accesses are
    little-endian sequences of byte accesses. *)

Module Banked.

Definition state : Type := gmap (Z * Z) Z.

Definition read8 (m : state) (address segment : Z) : Z :=
  default 0 (m !! (segment, address)).

Definition read16 (m : state) (address segment : Z) : Z :=
  Z.lor (read8 m address segment) (Z.shiftl (read8 m (address + 1) segment) 8).

Definition read32 (m : state) (address segment : Z) : Z :=
  Z.lor (read16 m address segment) (Z.shiftl (read16 m (address + 2) segment) 16).

Definition write8 (m : state) (address segment value : Z) : state :=
  <[(segment, address) := Z.land value 255]> m.

Definition write16 (m : state) (address segment value : Z) : state :=
  write8 (write8 m address segment value) (address + 1) segment (Z.shiftr value 8).

Definition write32 (m : state) (address segment value : Z) : state :=
  write16 (write16 m address segment value) (address + 2) segment (Z.shiftr value 16).

(** A cartridge whose upper half is banked, and a flat work RAM. *)
Definition cart : mCoreMemoryBlock := MkBlock "cart0" 0 0x8000 0x4000.

Definition wram : mCoreMemoryBlock := MkBlock "wram" 0x02000000 0x02040000 0.

Definition machine : mCore state :=
  MkCore read8 read16 read32 write8 write16 write32 (λ _, [cart; wram]).

(** A memory with two bytes set: one in bank 0 and one in bank 1. *)
Definition sample : state := <[(1, 0x2000) := 0x42]> (<[(0, 0x1FFF) := 0x41]> ∅).

End Banked.

(** ** A recording machine

    Its state is the list of the raw write calls received so far, each with
    its arguments in the order of the accessor's parameters; reads return
    zero. *)

Module Spy.

Inductive call : Type :=
| RawWrite (width : Z) (address segment value : Z).

Definition state : Type := list call.

Definition write (width : Z) (m : state) (address segment value : Z) : state :=
  m ++ [RawWrite width address segment value].

Definition machine : mCore state :=
  MkCore (λ _ _ _, 0) (λ _ _ _, 0) (λ _ _ _, 0) (write 8) (write 16) (write 32) (λ _, []).

Definition wram : mScriptMemoryAdapter state :=
  MkMemoryAdapter machine (MkBlock "wram" 0x02000000 0x02040000 0).

End Spy.

(** The region of the specification's example: [start = 0], [end = 0x4000],
    [segmentStart = 0x2000]. *)
Definition example_block : mCoreMemoryBlock := MkBlock "example" 0 0x4000 0x2000.

Definition example_adapter : mScriptMemoryAdapter Banked.state :=
  MkMemoryAdapter Banked.machine example_block.

(** A region without banked part. *)
Definition flat_adapter : mScriptMemoryAdapter Banked.state :=
  MkMemoryAdapter Banked.machine (MkBlock "flat" 0 0x100 0).

Definition wram_adapter : mScriptMemoryAdapter Banked.state :=
  MkMemoryAdapter Banked.machine Banked.wram.

(** ** A file system and engines

    The world of the examples is the list of script names loaded so far; the
    file system knows one file, and an open handle is the file's name. *)

Module Toy.

Definition world : Type := list string.

Definition fs : Vfs world string :=
  MkVfs (λ name w, if decide (name = "a.lua") then (Some name, w) else (None, w))
        (λ _ w, w).

(** An engine that declines every script and knows no symbol. *)
Definition deaf : mScriptEngine world string :=
  MkEngine (λ _ _ w, (false, w)) (λ _ _ w, (false, w)) (λ _ out w, (false, out, w)).

(** An engine that takes every script, and resolves every symbol to [v]. *)
Definition eager (v : Z) : mScriptEngine world string :=
  MkEngine (λ _ _ w, (true, w)) (λ name _ w, (true, name :: w)) (λ _ _ w, (true, v, w)).

(** An engine that recognises every script and fails to load it. *)
Definition broken : mScriptEngine world string :=
  MkEngine (λ _ _ w, (true, w)) (λ _ _ w, (false, w)) (λ _ _ w, (false, -1, w)).

Definition bridge : mScriptBridge world string :=
  MkBridge [("deaf", deaf); ("broken", broken); ("lua", eager 7); ("py", eager 9)].

Definition boot : Host world string := MkHost [] [].

End Toy.

(** ** Attaching the example machine, then reloading

    [mScriptContextAttachCore] builds the memory map of a new adapter in a
    context; a reload rebuilds it. *)

Definition attached : mScriptContext Banked.state * mScriptCoreAdapter Banked.state :=
  _rebuildMemoryMap ∅ (MkContext ∅ 0%N) (MkCoreAdapter Banked.machine ∅).

Definition reloaded : mScriptContext Banked.state * mScriptCoreAdapter Banked.state :=
  _rebuildMemoryMap ∅ attached.1 attached.2.

(** ** Shapes of the traces

    The events a scan of the engine table may leave behind, with the result
    of the scan: engines that decline or fail, then at most one engine that
    accepts, and nothing after it. *)

Inductive scan_trace {VFile : Type} : list (Event VFile) → bool → Prop :=
| scan_end : scan_trace [] false
| scan_declined key tr result :
    scan_trace tr result → scan_trace (EvIsScript key false :: tr) result
| scan_failed key tr result :
    scan_trace tr result →
    scan_trace (EvIsScript key true :: EvLoadScript key false :: tr) result
| scan_accepted key :
    scan_trace [EvIsScript key true; EvLoadScript key true] true.



(** No event of the list is a call of [close]. *)
Definition no_close {VFile} (tr : list (Event VFile)) : Prop :=
  ∀ vf, EvClose vf ∉ tr.

(* ===================================================================== *)
(** * Part II, continued: the rest of the scripting core                  *)
(* ===================================================================== *)

(** ** Region descriptors as the machines declare them

    32-bit fields, a non-empty range [[start, end)], and the banked part, if
    there is one, starting inside the range. *)
Definition block_well_formed (b : mCoreMemoryBlock) : Prop :=
  block_in_range b
  ∧ start b < end_ b
  ∧ (segmentStart b ≠ 0 → start b ≤ segmentStart b < end_ b).

(** ** Reading the traces of the bridge

    The engines whose [isScript] hook, respectively [lookupSymbol] hook, the
    events record, in the order of the calls, and the values the
    [lookupSymbol] hooks left in the cell [out]. *)

Definition sniffed {VFile} (tr : list (Event VFile)) : list string :=
  omap (λ e, match e with EvIsScript key _ => Some key | _ => None end) tr.



(** An engine whose answers about the script [name] do not depend on the
    state of the world, and what it answers in the world [w]. *)
Definition stateless {World VFile} (se : mScriptEngine World VFile)
    (name : string) (vf : VFile) : Prop :=
  ∀ w w', (isScript se name vf w).1 = (isScript se name vf w').1
          ∧ (loadScript se name vf w).1 = (loadScript se name vf w').1.

Definition accepts_in {World VFile} (se : mScriptEngine World VFile)
    (name : string) (vf : VFile) (w : World) : bool :=
  (isScript se name vf w).1 && (loadScript se name vf w).1.


(** ** The fan-out of [run] and [debuggerEntered]

    The two remaining hooks of [struct mScriptEngine] that the bridge calls
    on every engine, with the record of the calls. *)

Record mScriptEngineRun (World Reason Info : Type) : Type := MkEngineRun {
  run : World → World;
  debuggerEntered : Reason → Info → World → World
}.

Arguments MkEngineRun {World Reason Info}.
Arguments run {World Reason Info}.
Arguments debuggerEntered {World Reason Info}.

Inductive RunEvent (Reason Info : Type) : Type :=
| EvRun (key : string)
| EvDebuggerEntered (key : string) (reason : Reason) (info : Info).

Arguments EvRun {Reason Info}.
Arguments EvDebuggerEntered {Reason Info}.

(** [struct mScriptDebuggerEntry]. *)
Record mScriptDebuggerEntry (Reason Info : Type) : Type := MkDebuggerEntry {
  entry_reason : Reason;
  entry_info : Info
}.

Arguments MkDebuggerEntry {Reason Info}.
Arguments entry_reason {Reason Info}.
Arguments entry_info {Reason Info}.

(** The user pointer of [_seRun] is [NULL]; the host state is threaded in
    its place. *)
Definition _seRun {World Reason Info} (key : string)
    (se : mScriptEngineRun World Reason Info)
    (user : World * list (RunEvent Reason Info)) : World * list (RunEvent Reason Info) :=
  (run se user.1, user.2 ++ [EvRun key]).

Definition _seDebuggerEnter {World Reason Info} (key : string)
    (se : mScriptEngineRun World Reason Info)
    (user : mScriptDebuggerEntry Reason Info * (World * list (RunEvent Reason Info)))
    : mScriptDebuggerEntry Reason Info * (World * list (RunEvent Reason Info)) :=
  let '(entry, (w, log)) := user in
  (entry,
   (debuggerEntered se (entry_reason entry) (entry_info entry) w,
    log ++ [EvDebuggerEntered key (entry_reason entry) (entry_info entry)])).

(** [engines] is the table [sb->engines], in enumeration order. *)
Definition mScriptBridgeRun {World Reason Info}
    (engines : list (string * mScriptEngineRun World Reason Info))
    (host : World * list (RunEvent Reason Info)) : World * list (RunEvent Reason Info) :=
  HashTableEnumerate engines _seRun host.

Definition mScriptBridgeDebuggerEntered {World Reason Info}
    (engines : list (string * mScriptEngineRun World Reason Info))
    (reason : Reason) (info : Info)
    (host : World * list (RunEvent Reason Info)) : World * list (RunEvent Reason Info) :=
  let entry := MkDebuggerEntry reason info in
  (HashTableEnumerate engines _seDebuggerEnter (entry, host)).2.

(** ** The debugger of a bridge

    Bridges and debuggers are objects that point at each other:
    [bridge_debugger] holds [sb->debugger] for every bridge [sb] and
    [debugger_bridge] holds [debugger->bridge] for every debugger; a missing
    entry is the [NULL] pointer. *)

Record DebuggerLinks : Type := MkLinks {
  bridge_debugger : gmap nat nat;
  debugger_bridge : gmap nat nat
}.

Definition mScriptBridgeSetDebugger (sb : nat) (debugger : option nat)
    (links : DebuggerLinks) : DebuggerLinks :=
  if decide (bridge_debugger links !! sb = debugger) then links
  else
    let links :=
      match bridge_debugger links !! sb with
      | Some old => MkLinks (bridge_debugger links) (delete old (debugger_bridge links))
      | None => links
      end in
    let links :=
      MkLinks (match debugger with
               | Some d => <[sb := d]> (bridge_debugger links)
               | None => delete sb (bridge_debugger links)
               end)
              (debugger_bridge links) in
    match debugger with
    | Some d => MkLinks (bridge_debugger links) (<[d := sb]> (debugger_bridge links))
    | None => links
    end.

Definition mScriptBridgeGetDebugger (sb : nat) (links : DebuggerLinks) : option nat :=
  bridge_debugger links !! sb.

(** The bridge [sb] and the debuggers agree: a debugger points at [sb]
    exactly when [sb] points at it. *)
Definition linked (sb : nat) (links : DebuggerLinks) : Prop :=
  ∀ d, bridge_debugger links !! sb = Some d ↔ debugger_bridge links !! d = Some sb.

(** Example engines, for three engines ["a"], ["b"], ["c"] that count their
    runs in the world. *)
Definition counting : mScriptEngineRun nat nat string :=
  MkEngineRun S (λ _ _ w, w).

(** ** Tearing the core adapter down

    [_mScriptCoreAdapterDeinit] clears the map without invalidation and
    frees the table; what is left is the context. *)
Definition _mScriptCoreAdapterDeinit {M} (context : mScriptContext M)
    (adapter : mScriptCoreAdapter M) : mScriptContext M :=
  (_clearMemoryMap context adapter false).1.

(** Every handle the arena holds was issued by the context. *)
Definition arena_issued {M} (context : mScriptContext M) : Prop :=
  ∀ weakref, is_Some (weakrefs context !! weakref) →
    (weakref < nextWeakref context)%N.

(** ** Range reads on the bus

    [busRead8] of [struct mCore]: a read on the bus may change the machine
    (a read-sensitive register), so it returns the next state with the
    value. *)
Record mCoreBus (M : Type) : Type := MkBus {
  busRead8 : M → Z → Z * M
}.

Arguments MkBus {M}.
Arguments busRead8 {M}.

(** The loop of [_mScriptCoreReadRange]. *)
Fixpoint coreReadRange_loop {M} (core : mCoreBus M) (n : nat) (address : Z)
    (values : list Z) (m : M) : list Z * M :=
  match n with
  | O => (values, m)
  | S n' =>
      let '(value, m) := busRead8 core m address in
      coreReadRange_loop core n' (U32.add address 1) (values ++ [value]) m
  end.

Definition _mScriptCoreReadRange {M} (core : mCoreBus M) (m : M)
    (address length : Z) : list Z * M :=
  coreReadRange_loop core (Z.to_nat length) address [] m.

(** A bus of one read-sensitive counter: every read returns the number of
    reads made before, plus the address. *)
Definition counting_bus : mCoreBus Z :=
  MkBus (λ m address, (m + address, m + 1)).

(* ===================================================================== *)
(** * Part II, continued: the Qt display                                  *)
(* ===================================================================== *)

(** ** C++ [int] arithmetic

    A signed overflow and a division by zero are undefined behaviour and
    are [None] here; [/] and [%] truncate towards zero. *)

Module Int.

Definition in_range (x : Z) : Prop := - 2 ^ 31 ≤ x < 2 ^ 31.

Definition checked (x : Z) : option Z :=
  if decide (in_range x) then Some x else None.

Definition mul (a b : Z) : option Z := checked (a * b).

Definition sub (a b : Z) : option Z := checked (a - b).

Definition div (a b : Z) : option Z :=
  if decide (b = 0) then None else checked (a ÷ b).

Definition rem (a b : Z) : option Z :=
  if decide (b = 0) then None
  else if decide (a = - 2 ^ 31 ∧ b = -1) then None
  else Some (Z.rem a b).

End Int.

(** ** The rectangle [DisplayQt::paintEvent] draws the frame into *)

Module Display.

Record QSize : Type := MkSize { width : Z; height : Z }.

Record QPoint : Type := MkPoint { x : Z; y : Z }.

Definition setWidth (s : QSize) (w : Z) : QSize := MkSize w (height s).

Definition setHeight (s : QSize) (h : Z) : QSize := MkSize (width s) h.

(** The block under [isAspectRatioLocked()]: [s] is the size of the widget
    and [ds] the size to draw at. *)
Definition lock_aspect (m_width m_height : Z) (s ds : QSize) : option QSize :=
  a ← Int.mul (width s) m_height;
  b ← Int.mul (height s) m_width;
  if decide (b < a) then
    w ← Int.div b m_height; Some (setWidth ds w)
  else if decide (a < b) then
    h ← Int.div a m_width; Some (setHeight ds h)
  else Some ds.

(** The block under [isIntegerScalingLocked()]. *)
Definition lock_integer (m_width m_height : Z) (ds : QSize) : option QSize :=
  ds ← (if decide (m_width ≤ width ds) then
          r ← Int.rem (width ds) m_width;
          w ← Int.sub (width ds) r;
          Some (setWidth ds w)
        else Some ds);
  if decide (m_height ≤ height ds) then
    r ← Int.rem (height ds) m_height;
    h ← Int.sub (height ds) r;
    Some (setHeight ds h)
  else Some ds.

(** [QPoint((s.width() - ds.width()) / 2, (s.height() - ds.height()) / 2)]. *)
Definition centre (s ds : QSize) : option QPoint :=
  dx ← Int.sub (width s) (width ds);
  x ← Int.div dx 2;
  dy ← Int.sub (height s) (height ds);
  y ← Int.div dy 2;
  Some (MkPoint x y).

(** The rectangle [full] of [paintEvent], as its origin and size, from the
    frame dimensions [m_width] and [m_height], the two locks, the size
    [size()] of the widget and the size [viewportSize()] returns. *)
Definition paintEvent_full (m_width m_height : Z)
    (isAspectRatioLocked isIntegerScalingLocked : bool)
    (size viewportSize : QSize) : option (QPoint * QSize) :=
  let s := size in
  let ds := viewportSize in
  ds ← (if isAspectRatioLocked then lock_aspect m_width m_height s ds else Some ds);
  ds ← (if isIntegerScalingLocked then lock_integer m_width m_height ds else Some ds);
  origin ← centre s ds;
  Some (origin, ds).

(** Frame dimensions and widget sizes small enough for the products of
    [paintEvent] not to overflow. *)
Definition frame_ok (m_width m_height : Z) : Prop :=
  0 < m_width ≤ 32767 ∧ 0 < m_height ≤ 32767.

Definition size_ok (s : QSize) : Prop :=
  0 ≤ width s ≤ 32767 ∧ 0 ≤ height s ≤ 32767.

End Display.


(* ===================================================================== *)
(** * Part III: theorems                                                  *)
(* ===================================================================== *)

(** ** Unsigned arithmetic *)

Lemma wrap_in_range x : U32.in_range (U32.wrap x).
Proof. unfold U32.in_range, U32.wrap, U32.modulus. apply Z.mod_pos_bound. lia. Qed.

Lemma wrap_small x : U32.in_range x → U32.wrap x = x.
Proof. unfold U32.in_range, U32.wrap. intros Hx. by apply Z.mod_small. Qed.

(** ** Address translation of a region adapter *)

Section Translation.

Context {M : Type}.
Implicit Types (adapter : mScriptMemoryAdapter M) (m : M).

Lemma prefix_eq adapter :
  prefix adapter = U32.sub (segmentStart (block adapter)) (start (block adapter)).
Proof. unfold prefix, CALCULATE_SEGMENT_INFO. simpl. by case_decide. Qed.

Lemma segmentSize_eq adapter :
  segmentSize adapter =
    let size := U32.sub (end_ (block adapter)) (start (block adapter)) in
    if decide (segmentStart (block adapter) ≠ 0)
    then U32.sub size (prefix adapter) else size.
Proof.
  unfold segmentSize, prefix, CALCULATE_SEGMENT_INFO. simpl.
  by case_decide.
Qed.

Lemma segmentSize_in_range adapter : U32.in_range (segmentSize adapter).
Proof. rewrite segmentSize_eq. simpl. case_decide; apply wrap_in_range. Qed.

Lemma translate_eq adapter address :
  translate adapter address =
    if decide (segmentSize adapter = 0) then None
    else
      let segment := U32.to_int (address / segmentSize adapter) in
      let segmentAddress :=
        U32.add (address mod segmentSize adapter) (start (block adapter)) in
      if decide (segmentStart (block adapter) ≠ 0 ∧ segment ≠ 0)
      then Some (U32.add segmentAddress (prefix adapter), segment)
      else Some (segmentAddress, segment).
Proof.
  unfold translate, segmentSize, prefix, CALCULATE_SEGMENT_ADDRESS, CALCULATE_SEGMENT_INFO.
  simpl. by case_decide.
Qed.

Lemma translate_None adapter address :
  translate adapter address = None ↔ segmentSize adapter = 0.
Proof.
  rewrite translate_eq. simpl.
  repeat case_decide; split; intros; done.
Qed.

Lemma translate_is_Some adapter address :
  segmentSize adapter ≠ 0 → is_Some (translate adapter address).
Proof.
  intros Hsize. destruct (translate adapter address) eqn:E; [by eexists|].
  by apply translate_None in E.
Qed.

(** Every operation is the shared translation followed by one raw access. *)
Lemma read8_translate adapter m address :
  mScriptMemoryAdapterRead8 adapter m address =
    (λ p, rawRead8 (core adapter) m p.1 p.2) <$> translate adapter address.
Proof.
  unfold mScriptMemoryAdapterRead8, translate. simpl.
  by destruct (CALCULATE_SEGMENT_ADDRESS _ _ _) as [[? ?]|].
Qed.

Lemma read16_translate adapter m address :
  mScriptMemoryAdapterRead16 adapter m address =
    (λ p, rawRead16 (core adapter) m p.1 p.2) <$> translate adapter address.
Proof.
  unfold mScriptMemoryAdapterRead16, translate. simpl.
  by destruct (CALCULATE_SEGMENT_ADDRESS _ _ _) as [[? ?]|].
Qed.

Lemma read32_translate adapter m address :
  mScriptMemoryAdapterRead32 adapter m address =
    (λ p, rawRead32 (core adapter) m p.1 p.2) <$> translate adapter address.
Proof.
  unfold mScriptMemoryAdapterRead32, translate. simpl.
  by destruct (CALCULATE_SEGMENT_ADDRESS _ _ _) as [[? ?]|].
Qed.

(** The writes pass the untranslated [address] where the reads pass the
    physical address, and the physical address, converted to [int], where
    the reads pass the bank index. *)
Lemma write8_translate adapter m address value :
  mScriptMemoryAdapterWrite8 adapter m address value =
    (λ p, rawWrite8 (core adapter) m address (U32.to_int p.1) (to_uint8 value))
      <$> translate adapter address.
Proof.
  unfold mScriptMemoryAdapterWrite8, translate. simpl.
  by destruct (CALCULATE_SEGMENT_ADDRESS _ _ _) as [[? ?]|].
Qed.

Lemma write16_translate adapter m address value :
  mScriptMemoryAdapterWrite16 adapter m address value =
    (λ p, rawWrite16 (core adapter) m address (U32.to_int p.1) (to_uint16 value))
      <$> translate adapter address.
Proof.
  unfold mScriptMemoryAdapterWrite16, translate. simpl.
  by destruct (CALCULATE_SEGMENT_ADDRESS _ _ _) as [[? ?]|].
Qed.

Lemma write32_translate adapter m address value :
  mScriptMemoryAdapterWrite32 adapter m address value =
    (λ p, rawWrite32 (core adapter) m address (U32.to_int p.1) (U32.wrap value))
      <$> translate adapter address.
Proof.
  unfold mScriptMemoryAdapterWrite32, translate. simpl.
  by destruct (CALCULATE_SEGMENT_ADDRESS _ _ _) as [[? ?]|].
Qed.

(** *** The read loop *)

Lemma readRange_loop_zero adapter m n address values :
  segmentSize adapter = 0 →
  readRange_loop adapter m (CALCULATE_SEGMENT_INFO adapter) (S n) address values = None.
Proof.
  intros Hsize. simpl. fold (translate adapter address).
  apply (translate_None adapter address) in Hsize. by rewrite Hsize.
Qed.

Lemma readRange_loop_spec adapter m n : ∀ address values,
  segmentSize adapter ≠ 0 →
  U32.in_range address →
  ∃ l, readRange_loop adapter m (CALCULATE_SEGMENT_INFO adapter) n address values
         = Some (values ++ l)
       ∧ length l = n
       ∧ ∀ i : nat, (i < n)%nat →
           l !! i = mScriptMemoryAdapterRead8 adapter m (U32.wrap (address + Z.of_nat i)).
Proof.
  induction n as [|n IH]; intros address values Hsize Haddr.
  - exists []. simpl. rewrite app_nil_r. split; [done|]. split; [done|].
    intros i Hi. lia.
  - simpl. fold (translate adapter address).
    destruct (translate_is_Some adapter address Hsize) as [[sa seg] Htr].
    rewrite Htr. simpl.
    destruct (IH (U32.add address 1) (values ++ [rawRead8 (core adapter) m sa seg])
                Hsize (wrap_in_range _)) as (l & Hl & Hlen & Hnth).
    exists (rawRead8 (core adapter) m sa seg :: l).
    split; [by rewrite Hl, <- app_assoc|].
    split; [simpl; by rewrite Hlen|].
    intros [|i] Hi.
    + simpl. rewrite Z.add_0_r, wrap_small by done.
      by rewrite read8_translate, Htr.
    + simpl. rewrite Hnth by lia. f_equal.
      unfold U32.add, U32.wrap. rewrite Zplus_mod_idemp_l. f_equal. lia.
Qed.

Lemma readRange_loop_is_Some adapter m n : ∀ address values,
  segmentSize adapter ≠ 0 →
  is_Some (readRange_loop adapter m (CALCULATE_SEGMENT_INFO adapter) n address values).
Proof.
  induction n as [|n IH]; intros address values Hsize; [by eexists|].
  simpl. fold (translate adapter address).
  destruct (translate_is_Some adapter address Hsize) as [[sa seg] ->].
  simpl. by apply IH.
Qed.

Lemma readRange_None adapter m address length :
  mScriptMemoryAdapterReadRange adapter m address length = None
  ↔ segmentSize adapter = 0 ∧ 0 < length.
Proof.
  unfold mScriptMemoryAdapterReadRange. simpl. split.
  - intros Hnone. destruct (decide (segmentSize adapter = 0)) as [Hz|Hnz].
    + split; [done|]. destruct (Z.to_nat length) eqn:E; [done | lia].
    + destruct (readRange_loop_is_Some adapter m (Z.to_nat length) address [] Hnz)
        as [l Hl]. congruence.
  - intros [Hz Hlen]. destruct (Z.to_nat length) eqn:E; [lia|].
    by apply readRange_loop_zero.
Qed.

(** ** The claims on region adapters *)

(** C2, as amended.  For the region [start = 0], [end = 0x4000],
    [segmentStart = 0x2000] of any machine: the segment size is [0x2000]; a
    read at offset [0x2000] is the raw read at physical address [0x2000]
    (start + segmentAddress + prefix = 0 + 0 + 0x2000) in bank 1; a read at
    offset 0 is the raw read at physical address 0 in bank 0. *)
Theorem example_region_translation (core : mCore M) (name : string) m :
  let adapter := MkMemoryAdapter core (MkBlock name 0 0x4000 0x2000) in
  segmentSize adapter = 0x2000
  ∧ translate adapter 0x2000 = Some (0x2000, 1)
  ∧ mScriptMemoryAdapterRead8 adapter m 0x2000 = Some (rawRead8 core m 0x2000 1)
  ∧ translate adapter 0 = Some (0, 0)
  ∧ mScriptMemoryAdapterRead8 adapter m 0 = Some (rawRead8 core m 0 0).
Proof. repeat split. Qed.

(** C3, as amended.  For a region without [segmentStart] (with
    [start < end]) the offset [address] resolves to the physical address
    [start + address mod (end - start)] and the bank
    [address / (end - start)]; for an offset inside the region,
    [address < end - start], this is [start + address] and bank 0, and that
    is where a read goes. *)
Theorem flat_region_translation adapter address :
  block_in_range (block adapter) →
  segmentStart (block adapter) = 0 →
  start (block adapter) < end_ (block adapter) →
  U32.in_range address →
  let size := end_ (block adapter) - start (block adapter) in
  translate adapter address
    = Some (start (block adapter) + address mod size, U32.to_int (address / size))
  ∧ (address < size →
       translate adapter address = Some (start (block adapter) + address, 0)
       ∧ ∀ m, mScriptMemoryAdapterRead8 adapter m address
              = Some (rawRead8 (core adapter) m (start (block adapter) + address) 0)).
Proof.
  intros (Hs & He & _) Hflat Hlt Haddr size.
  assert (Hsize : segmentSize adapter = size).
  { rewrite segmentSize_eq. simpl. rewrite decide_False by (by intros []).
    unfold U32.sub. apply wrap_small. unfold U32.in_range in *. lia. }
  assert (Hmod : 0 ≤ address mod size < size) by (apply Z.mod_pos_bound; lia).
  assert (Htr : translate adapter address
    = Some (start (block adapter) + address mod size, U32.to_int (address / size))).
  { rewrite translate_eq, Hsize. rewrite decide_False by lia. simpl.
    rewrite decide_False by (by intros [[] _]).
    do 2 f_equal. unfold U32.add. rewrite Z.add_comm. apply wrap_small.
    unfold U32.in_range in *. lia. }
  split; [done|]. intros Hin.
  assert (Htr' : translate adapter address = Some (start (block adapter) + address, 0)).
  { rewrite Htr, Z.mod_small, Z.div_small by (unfold U32.in_range in *; lia). done. }
  split; [done|]. intros m. by rewrite read8_translate, Htr'.
Qed.

(** C8.  On a region with a non-zero segment size, [readRange(address, n)]
    returns a list of exactly [n] values whose [i]-th element is the single
    read [read8] at offset [address + i], the offset being a [uint32_t] that
    wraps; each element is translated on its own. *)
Theorem readRange_is_read8 adapter m address length :
  segmentSize adapter ≠ 0 →
  U32.in_range address →
  ∃ values,
    mScriptMemoryAdapterReadRange adapter m address length = Some values
    ∧ List.length values = Z.to_nat length
    ∧ ∀ i : nat, (i < Z.to_nat length)%nat →
        values !! i = mScriptMemoryAdapterRead8 adapter m (U32.wrap (address + Z.of_nat i)).
Proof.
  intros Hsize Haddr. unfold mScriptMemoryAdapterReadRange. simpl.
  destruct (readRange_loop_spec adapter m (Z.to_nat length) address [] Hsize Haddr)
    as (l & Hl & Hlen & Hnth).
  exists l. by rewrite Hl.
Qed.

End Translation.

(** C10.  Every operation of a region adapter divides by the segment size,
    which is never negative: a single access is undefined exactly when the
    segment size is zero, and so is a range read of at least one byte.  For a descriptor with
    [start < end] whose prefix, if it has one, is smaller than [end - start],
    the segment size is [end - start] less the prefix and is positive, so
    every operation is defined at every offset. *)
Theorem segment_division_defined {M} (adapter : mScriptMemoryAdapter M) :
  0 ≤ segmentSize adapter
  ∧ (∀ (m : M) address value,
     (mScriptMemoryAdapterRead8 adapter m address = None ↔ segmentSize adapter = 0)
     ∧ (mScriptMemoryAdapterRead16 adapter m address = None ↔ segmentSize adapter = 0)
     ∧ (mScriptMemoryAdapterRead32 adapter m address = None ↔ segmentSize adapter = 0)
     ∧ (mScriptMemoryAdapterWrite8 adapter m address value = None ↔ segmentSize adapter = 0)
     ∧ (mScriptMemoryAdapterWrite16 adapter m address value = None ↔ segmentSize adapter = 0)
     ∧ (mScriptMemoryAdapterWrite32 adapter m address value = None ↔ segmentSize adapter = 0)
     ∧ (∀ length, mScriptMemoryAdapterReadRange adapter m address length = None
                  ↔ segmentSize adapter = 0 ∧ 0 < length))
  ∧ (block_in_range (block adapter) →
     start (block adapter) < end_ (block adapter) →
     (segmentStart (block adapter) ≠ 0 →
        prefix adapter < end_ (block adapter) - start (block adapter)) →
     segmentSize adapter
       = end_ (block adapter) - start (block adapter)
         - (if decide (segmentStart (block adapter) ≠ 0) then prefix adapter else 0)
     ∧ 0 < segmentSize adapter
     ∧ ∀ (m : M) address value length,
         is_Some (mScriptMemoryAdapterRead8 adapter m address)
         ∧ is_Some (mScriptMemoryAdapterRead16 adapter m address)
         ∧ is_Some (mScriptMemoryAdapterRead32 adapter m address)
         ∧ is_Some (mScriptMemoryAdapterWrite8 adapter m address value)
         ∧ is_Some (mScriptMemoryAdapterWrite16 adapter m address value)
         ∧ is_Some (mScriptMemoryAdapterWrite32 adapter m address value)
         ∧ is_Some (mScriptMemoryAdapterReadRange adapter m address length)).
Proof.
  assert (Hnone : ∀ (m : M) address value,
     (mScriptMemoryAdapterRead8 adapter m address = None ↔ segmentSize adapter = 0)
     ∧ (mScriptMemoryAdapterRead16 adapter m address = None ↔ segmentSize adapter = 0)
     ∧ (mScriptMemoryAdapterRead32 adapter m address = None ↔ segmentSize adapter = 0)
     ∧ (mScriptMemoryAdapterWrite8 adapter m address value = None ↔ segmentSize adapter = 0)
     ∧ (mScriptMemoryAdapterWrite16 adapter m address value = None ↔ segmentSize adapter = 0)
     ∧ (mScriptMemoryAdapterWrite32 adapter m address value = None ↔ segmentSize adapter = 0)
     ∧ (∀ length, mScriptMemoryAdapterReadRange adapter m address length = None
                  ↔ segmentSize adapter = 0 ∧ 0 < length)).
  { intros m address value.
    rewrite read8_translate, read16_translate, read32_translate,
      write8_translate, write16_translate, write32_translate.
    rewrite !fmap_None, !translate_None.
    repeat (split; [reflexivity|]). intros length. apply readRange_None. }
  split; [apply segmentSize_in_range|].
  split; [exact Hnone|].
  intros (Hs & He & Hss) Hlt Hprefix.
  assert (Hsize : segmentSize adapter
       = end_ (block adapter) - start (block adapter)
         - (if decide (segmentStart (block adapter) ≠ 0) then prefix adapter else 0)).
  { assert (Hraw : U32.sub (end_ (block adapter)) (start (block adapter))
                    = end_ (block adapter) - start (block adapter)).
    { apply wrap_small. unfold U32.in_range in *. lia. }
    rewrite segmentSize_eq. simpl. rewrite Hraw.
    case_decide as Hseg; [|lia].
    specialize (Hprefix Hseg). apply wrap_small.
    pose proof (wrap_in_range (segmentStart (block adapter) - start (block adapter))) as Hp.
    rewrite prefix_eq in *. unfold U32.sub, U32.in_range in *. lia. }
  assert (Hpos : 0 < segmentSize adapter).
  { rewrite Hsize. case_decide as Hseg; [|lia]. specialize (Hprefix Hseg). lia. }
  split; [done|]. split; [done|].
  intros m address value length.
  destruct (Hnone m address value) as (H1 & H2 & H3 & H4 & H5 & H6 & H7).
  repeat split; apply not_eq_None_Some; rewrite ?H1, ?H2, ?H3, ?H4, ?H5, ?H6, ?H7; lia.
Qed.

(** C10 on the banked example region. *)
Lemma segment_division_defined_witness :
  0 < segmentSize example_adapter
  ∧ is_Some (mScriptMemoryAdapterReadRange example_adapter ∅ 0x1FFE 4).
Proof.
  destruct (segment_division_defined example_adapter) as (_ & _ & Hpre).
  destruct Hpre as (_ & Hpos & Hops).
  - repeat split; by vm_compute.
  - by vm_compute.
  - intros _. by vm_compute.
  - split; [exact Hpos|]. apply (Hops ∅ 0x1FFE 0 4).
Defined.

(** C3 at the work RAM of the example machine, offset [0x10]. *)
Lemma flat_region_translation_witness :
  translate wram_adapter 0x10 = Some (0x02000010, 0).
Proof.
  destruct (flat_region_translation wram_adapter 0x10) as [_ Hin].
  - repeat split; by vm_compute.
  - reflexivity.
  - by vm_compute.
  - split; by vm_compute.
  - destruct Hin as [Htr _]; [by vm_compute|]. exact Htr.
Defined.

(** C8 on the banked example region: four bytes from offset [0x1FFE] cross
    from bank 0 into bank 1. *)
Lemma readRange_is_read8_witness :
  ∃ values,
    mScriptMemoryAdapterReadRange example_adapter Banked.sample 0x1FFE 4 = Some values
    ∧ values !! 1%nat = Some 0x41
    ∧ values !! 2%nat = Some 0x42.
Proof.
  destruct (readRange_is_read8 example_adapter Banked.sample 0x1FFE 4)
    as (values & Hv & _ & Hnth).
  - by vm_compute.
  - split; by vm_compute.
  - exists values. split; [exact Hv|]. split.
    + rewrite (Hnth 1%nat) by (vm_compute; lia). by vm_compute.
    + rewrite (Hnth 2%nat) by (vm_compute; lia). by vm_compute.
Defined.

(** C2, the claim as stated: offset [0x2000] does not resolve to the physical
    address [0x4000]. *)
Lemma example_region_not_0x4000 :
  ¬ (segmentSize example_adapter = 0x2000
     ∧ fst <$> translate example_adapter 0x2000 = Some 0x4000
     ∧ fst <$> translate example_adapter 0 = Some 0).
Proof. intros (_ & H & _). vm_compute in H. discriminate H. Qed.

(** C3, the claim as stated: in the region [[0, 0x100)] without
    [segmentStart], the offset [0x100] resolves to physical address 0 in
    bank 1, not to [start + address] in bank 0. *)
Lemma flat_region_offset_beyond_size :
  segmentStart (block flat_adapter) = 0
  ∧ translate flat_adapter 0x100 = Some (0, 1)
  ∧ translate flat_adapter 0x100 ≠ Some (start (block flat_adapter) + 0x100, 0).
Proof. repeat split. by vm_compute. Qed.

(** C1.  A write of [0xAB] at offset [0x10] of the work RAM, which starts at
    [0x02000000]: the offset resolves to physical address [0x02000010] in
    bank 0, and that is what a read passes on; the raw write accessors
    receive the offset [0x10] as the address and [0x02000010] as the bank. *)
Theorem write_passes_offset_and_address :
  translate Spy.wram 0x10 = Some (0x02000010, 0)
  ∧ mScriptMemoryAdapterWrite8 Spy.wram [] 0x10 0xAB
      = Some [Spy.RawWrite 8 0x10 0x02000010 0xAB]
  ∧ mScriptMemoryAdapterWrite16 Spy.wram [] 0x10 0xAB
      = Some [Spy.RawWrite 16 0x10 0x02000010 0xAB]
  ∧ mScriptMemoryAdapterWrite32 Spy.wram [] 0x10 0xAB
      = Some [Spy.RawWrite 32 0x10 0x02000010 0xAB].
Proof. repeat split. Qed.

(** On the banked memory, the byte written at an offset is not the byte read
    back from that offset. *)
Lemma write8_read8_mismatch :
  ∃ m, mScriptMemoryAdapterWrite8 wram_adapter ∅ 0x10 0xAB = Some m
       ∧ mScriptMemoryAdapterRead8 wram_adapter m 0x10 = Some 0.
Proof. eexists. split; [reflexivity | by vm_compute]. Qed.

(** ** The engine bridge *)

Section Scan.

Context {World VFile : Type}.
Implicit Types (h : Host World VFile) (se : mScriptEngine World VFile).
Implicit Types (l : list (string * mScriptEngine World VFile)).
Implicit Types (tr : list (Event VFile)).

Lemma HashTableEnumerate_cons {V U : Type} key (value : V) table
    (handler : string → V → U → U) (user : U) :
  HashTableEnumerate ((key, value) :: table) handler user
    = HashTableEnumerate table handler (handler key value user).
Proof. reflexivity. Qed.

(** Once an engine has accepted, the rest of the enumeration changes
    nothing and calls no hook. *)
Lemma tryLoad_done l (si : mScriptInfo VFile) h :
  info_success si = true →
  HashTableEnumerate l _seTryLoad (si, h) = (si, h).
Proof.
  intros Hs. induction l as [|[key se] l IH]; [done|].
  unfold HashTableEnumerate in *. simpl. rewrite Hs. simpl. exact IH.
Qed.


Lemma tryLoad_scan l : ∀ name (vf : VFile) h,
  ∃ tr success h',
    HashTableEnumerate l _seTryLoad (MkInfo name vf false, h) = (MkInfo name vf success, h')
    ∧ trace h' = trace h ++ tr
    ∧ scan_trace tr success.
Proof.
  induction l as [|[key se] l IH]; intros name vf h.
  { exists [], false, h. rewrite app_nil_r. repeat split. constructor. }
  unfold HashTableEnumerate in *. simpl. unfold call_isScript.
  destruct (isScript se name vf (world h)) as [[|] w1]; simpl.
  - unfold call_loadScript. simpl.
    destruct (loadScript se name vf w1) as [[|] w2]; simpl.
    + pose proof (tryLoad_done l (MkInfo name vf true)) as Hdone.
      unfold HashTableEnumerate in Hdone. rewrite Hdone by done.
      exists [EvIsScript key true; EvLoadScript key true], true. eexists.
      split; [done|]. split; [simpl; by rewrite <- app_assoc | constructor].
    + destruct (IH name vf (MkHost w2 ((trace h ++ [EvIsScript key true])
                                         ++ [EvLoadScript key false])))
        as (tr & success & h' & Hrun & Htr & Hscan).
      exists (EvIsScript key true :: EvLoadScript key false :: tr), success, h'.
      split; [exact Hrun|]. split; [|by constructor].
      rewrite Htr. simpl. by rewrite <- !app_assoc.
  - destruct (IH name vf (MkHost w1 (trace h ++ [EvIsScript key false])))
      as (tr & success & h' & Hrun & Htr & Hscan).
    exists (EvIsScript key false :: tr), success, h'.
    split; [exact Hrun|]. split; [|by constructor].
    rewrite Htr. simpl. by rewrite <- !app_assoc.
Qed.


(** *** What the shape of a scan says *)





Lemma scan_no_close tr success : scan_trace tr success → no_close tr.
Proof.
  unfold no_close.
  induction 1 as [|k tr r _ IH|k tr r _ IH|k]; intros vf Hin.
  - by apply elem_of_nil in Hin.
  - apply elem_of_cons in Hin as [Hin|Hin]; [done | by eapply IH].
  - apply elem_of_cons in Hin as [Hin|Hin]; [done|].
    apply elem_of_cons in Hin as [Hin|Hin]; [done | by eapply IH].
  - apply elem_of_cons in Hin as [Hin|Hin]; [done|].
    apply elem_of_cons in Hin as [Hin|Hin]; [done | by apply elem_of_nil in Hin].
Qed.






(** *** An engine that always accepts *)

Lemma tryLoad_step_fields key se (si : mScriptInfo VFile) h :
  info_name (_seTryLoad key se (si, h)).1 = info_name si
  ∧ info_vf (_seTryLoad key se (si, h)).1 = info_vf si.
Proof.
  unfold _seTryLoad, call_isScript, call_loadScript.
  destruct (info_success si); simpl; [done|].
  destruct (isScript se _ _ _) as [[|] w]; simpl; [|done].
  by destruct (loadScript se _ _ _) as [? ?].
Qed.




(** *** An engine that always resolves *)




(** ** The claims on the bridge *)

(** C5.  When the resource cannot be opened, [loadScript] returns failure
    and leaves the trace as it was: no hook of any engine is called, and the
    world is the one the failed open left.  When the resource is opened, the
    last thing [loadScript] does, whatever it returns, is to close the handle
    it opened, and it closes nothing before. *)
Theorem loadScript_open_close (fs : Vfs World VFile) (sb : mScriptBridge World VFile)
    (name : string) h :
  (∀ w, VFileOpen fs name (world h) = (None, w) →
        mScriptBridgeLoadScript fs sb name h = (false, MkHost w (trace h)))
  ∧ (∀ vf w, VFileOpen fs name (world h) = (Some vf, w) →
       ∃ success h1 tr,
         mScriptBridgeLoadScript fs sb name h = (success, call_close fs vf h1)
         ∧ trace h1 = trace h ++ tr
         ∧ no_close tr).
Proof.
  split.
  - intros w Hopen. unfold mScriptBridgeLoadScript. by rewrite Hopen.
  - intros vf w Hopen. unfold mScriptBridgeLoadScript. rewrite Hopen.
    destruct (tryLoad_scan (engines sb) name vf (MkHost w (trace h)))
      as (tr & success & h1 & Hrun & Htr & Hscan).
    rewrite Hrun. exists success, h1, tr.
    split; [done|]. split; [exact Htr|]. by eapply scan_no_close.
Qed.



End Scan.

(** C5 on the example bridge: [b.lua] does not exist, [a.lua] does. *)
Lemma loadScript_open_close_witness :
  mScriptBridgeLoadScript Toy.fs Toy.bridge "b.lua" Toy.boot = (false, Toy.boot)
  ∧ ∃ success h1 tr,
      mScriptBridgeLoadScript Toy.fs Toy.bridge "a.lua" Toy.boot
        = (success, call_close Toy.fs "a.lua" h1)
      ∧ trace h1 = trace Toy.boot ++ tr
      ∧ no_close tr.
Proof.
  split.
  - apply (proj1 (loadScript_open_close Toy.fs Toy.bridge "b.lua" Toy.boot)).
    reflexivity.
  - apply (proj2 (loadScript_open_close Toy.fs Toy.bridge "a.lua" Toy.boot) "a.lua" []).
    reflexivity.
Defined.



(** The lookup on the example bridge stops at the engine ["lua"]. *)
Example lookupSymbol_example :
  mScriptBridgeLookupSymbol Toy.bridge "x" 0 Toy.boot
  = (true, 7,
     MkHost [] [EvLookupSymbol "deaf" false 0; EvLookupSymbol "broken" false (-1);
                EvLookupSymbol "lua" true 7]).
Proof. reflexivity. Qed.

(** ** The memory map *)

Section MemoryMap.

Context {M : Type}.
Implicit Types (context : mScriptContext M) (adapter : mScriptCoreAdapter M).

(** Clearing the handles of a list of table entries removes exactly these
    handles from the arena. *)
Lemma clear_entries (entries : list (string * N)) : ∀ context,
  let context' :=
    foldl (λ context entry, mScriptContextClearWeakref context entry.2)
          context entries in
  nextWeakref context' = nextWeakref context
  ∧ ∀ i, weakrefs context' !! i
         = if decide (i ∈ entries.*2) then None else weakrefs context !! i.
Proof.
  induction entries as [|[key weakref] entries IH]; intros context;
    cbn zeta in *; cbn [foldl snd].
  - split; [done|]. intros i. rewrite decide_False; [done|]. apply not_elem_of_nil.
  - destruct (IH (mScriptContextClearWeakref context weakref)) as [Hnext Hlookup].
    split; [by rewrite Hnext|].
    intros i. rewrite Hlookup. rewrite fmap_cons. cbn [snd weakrefs mScriptContextClearWeakref].
    destruct (decide (i = weakref)) as [->|Hne].
    + rewrite lookup_delete_eq, (decide_True _ _ (list_elem_of_here _ _)).
      by case_decide.
    + rewrite lookup_delete_ne by done.
      case_decide as Hin.
      * by rewrite decide_True by (by apply list_elem_of_further).
      * rewrite decide_False; [done|].
        intros [?|?]%elem_of_cons; done.
Qed.

Lemma clearMemoryMap_invalidates context adapter :
  let cleared := _clearMemoryMap context adapter true in
  cleared.2 = MkCoreAdapter (adapter_core adapter) ∅
  ∧ nextWeakref cleared.1 = nextWeakref context
  ∧ (∀ name weakref, memory adapter !! name = Some weakref →
       mScriptContextAccessWeakref cleared.1 weakref = None)
  ∧ (∀ weakref, (∀ name, memory adapter !! name ≠ Some weakref) →
       mScriptContextAccessWeakref cleared.1 weakref
       = mScriptContextAccessWeakref context weakref).
Proof.
  unfold _clearMemoryMap. cbn beta iota zeta.
  destruct (clear_entries (map_to_list (memory adapter)) context) as [Hnext Hlookup].
  cbn [fst snd].
  split; [done|]. split; [exact Hnext|].
  unfold mScriptContextAccessWeakref. split.
  - intros name weakref Hin.
    rewrite Hlookup, decide_True; [done|].
    apply elem_of_map_to_list in Hin.
    by apply (list_elem_of_fmap_2 snd) in Hin.
  - intros weakref Hother.
    rewrite Hlookup, decide_False; [done|].
    intros ([name w] & -> & Hin)%list_elem_of_fmap.
    apply elem_of_map_to_list in Hin. by apply (Hother name).
Qed.

(** The loop of [_rebuildMemoryMap], started on an empty table. *)
Lemma rebuild_loop (core0 : mCore M) context0 (blocks : list mCoreMemoryBlock) :
  let built := foldl rebuild_step (context0, MkCoreAdapter core0 ∅) blocks in
  adapter_core built.2 = core0
  ∧ (nextWeakref context0 ≤ nextWeakref built.1)%N
  ∧ (∀ i, (i < nextWeakref context0)%N →
       weakrefs built.1 !! i = weakrefs context0 !! i)
  ∧ (∀ name weakref, memory built.2 !! name = Some weakref →
       (nextWeakref context0 ≤ weakref < nextWeakref built.1)%N)
  ∧ dom (memory built.2) = list_to_set (internalName <$> blocks)
  ∧ (∀ name, resolve_region built.1 built.2 name
       = (λ b, VMemoryAdapter (MkMemoryAdapter core0 b))
           <$> last (filter (λ b, internalName b = name) blocks)).
Proof.
  induction blocks as [|b blocks IH] using rev_ind; simpl.
  - split; [done|]. split; [lia|]. split; [done|].
    split; [intros name weakref; by rewrite lookup_empty|].
    split; [by rewrite dom_empty_L|].
    intros name. unfold resolve_region. simpl. by rewrite lookup_empty.
  - rewrite foldl_snoc.
    destruct (foldl rebuild_step (context0, MkCoreAdapter core0 ∅) blocks)
      as [context adapter].
    simpl in IH. destruct IH as (Hcore & Hnext & Hold & Hrange & Hdom & Hres).
    unfold rebuild_step. simpl.
    split; [done|]. split; [lia|].
    split; [intros i Hi; rewrite lookup_insert_ne by lia; by apply Hold|].
    split.
    { intros name weakref. rewrite lookup_insert. case_decide.
      - intros [= <-]. lia.
      - intros Hin. apply Hrange in Hin. lia. }
    split.
    { rewrite dom_insert_L, Hdom, fmap_app, list_to_set_app_L.
      rewrite (comm_L (∪)). f_equal. cbn [fmap list_fmap list_to_set].
      by rewrite (right_id_L ∅ (∪)). }
    intros name. rewrite filter_app. specialize (Hres name).
    unfold resolve_region, mScriptContextAccessWeakref in *. simpl in *.
    destruct (decide (internalName b = name)) as [Heq|Hne].
    + rewrite Heq, lookup_insert_eq. simpl. rewrite lookup_insert_eq.
      rewrite filter_cons_True by done. rewrite filter_nil, last_snoc.
      simpl. by rewrite Hcore.
    + rewrite lookup_insert_ne by done.
      rewrite filter_cons_False by done. rewrite filter_nil, app_nil_r.
      rewrite <- Hres.
      destruct (memory adapter !! name) as [weakref|] eqn:Hin; [|done].
      simpl. apply Hrange in Hin. by rewrite lookup_insert_ne by lia.
Qed.

(** C4.  A rebuild of the memory map, in a context that issued the handles
    of the old map: every handle of the old map resolves to absent
    afterwards, while the handles the context issued for other values resolve
    as before; the new map has exactly the internal names of the machine's
    current block list as keys; each of its handles is one the context had
    not issued before, and is issued now; and a name resolves to the region
    adapter of the (last) descriptor of that name, on the adapter's
    machine. *)
Theorem rebuild_invalidates_and_repopulates (m : M) context adapter context' adapter' :
  memory_issued context adapter →
  _rebuildMemoryMap m context adapter = (context', adapter') →
  let blocks := listMemoryBlocks (adapter_core adapter) m in
  (∀ name weakref, memory adapter !! name = Some weakref →
     mScriptContextAccessWeakref context' weakref = None)
  ∧ (∀ weakref, (weakref < nextWeakref context)%N →
       (∀ name, memory adapter !! name ≠ Some weakref) →
       mScriptContextAccessWeakref context' weakref
       = mScriptContextAccessWeakref context weakref)
  ∧ dom (memory adapter') = list_to_set (internalName <$> blocks)
  ∧ (∀ name weakref, memory adapter' !! name = Some weakref →
       (nextWeakref context ≤ weakref)%N)
  ∧ memory_issued context' adapter'
  ∧ (∀ name, resolve_region context' adapter' name
       = (λ b, VMemoryAdapter (MkMemoryAdapter (adapter_core adapter) b))
           <$> last (filter (λ b, internalName b = name) blocks)).
Proof.
  intros Hissued Hrun blocks. unfold _rebuildMemoryMap in Hrun.
  destruct (clearMemoryMap_invalidates context adapter)
    as (Hmap & Hnext & Hdead & Hkept).
  destruct (_clearMemoryMap context adapter true) as [context1 adapter1].
  simpl in Hmap, Hnext, Hdead, Hkept. subst adapter1. simpl in Hrun.
  destruct (rebuild_loop (adapter_core adapter) context1 blocks)
    as (Hcore & Hle & Hold & Hrange & Hdom & Hres).
  fold blocks in Hrun. rewrite Hrun in *. simpl in *.
  split.
  { intros name weakref Hin. unfold mScriptContextAccessWeakref in *.
    rewrite Hold; [by eapply Hdead|].
    rewrite Hnext. by eapply Hissued. }
  split.
  { intros weakref Hlt Hother. unfold mScriptContextAccessWeakref in *.
    rewrite Hold by (by rewrite Hnext). by apply Hkept. }
  split; [exact Hdom|].
  split; [intros name weakref Hin; apply Hrange in Hin; lia|].
  split; [|exact Hres].
  intros name weakref Hin. apply Hrange in Hin. lia.
Qed.

End MemoryMap.

(** C4 on the example machine: the handle issued for ["wram"] when the
    machine was attached is dead after the reload, and ["wram"] is a key of
    the new map, resolving to a new adapter. *)
Lemma rebuild_invalidates_and_repopulates_witness :
  memory attached.2 !! "wram" = Some 1%N
  ∧ mScriptContextAccessWeakref reloaded.1 1%N = None
  ∧ resolve_region reloaded.1 reloaded.2 "wram"
    = Some (VMemoryAdapter (MkMemoryAdapter Banked.machine Banked.wram)).
Proof.
  assert (Hmem : memory attached.2 = <["wram" := 1%N]> (<["cart0" := 0%N]> ∅)).
  { by vm_compute. }
  destruct (rebuild_invalidates_and_repopulates ∅ attached.1 attached.2
              reloaded.1 reloaded.2) as (Hdead & _ & _ & _ & _ & Hres).
  - intros name weakref. rewrite Hmem.
    rewrite lookup_insert. case_decide; [intros [= <-]; by vm_compute|].
    rewrite lookup_insert. case_decide; [intros [= <-]; by vm_compute|].
    by rewrite lookup_empty.
  - unfold reloaded. by destruct (_rebuildMemoryMap _ _ _).
  - split; [by vm_compute|]. split.
    + apply (Hdead "wram"). by vm_compute.
    + rewrite (Hres "wram"). reflexivity.
Defined.

(** ** The savestate bindings *)

Section SavestateDefaults.

Context {M : Type}.
Variables SAVESTATE_ALL SAVESTATE_SAVEDATA : Z.
Variables mCoreSaveState mCoreLoadState : M → Z → Z → Z * M.

Lemma land_lnot_disjoint a b : Z.land (Z.land a (Z.lnot b)) b = 0.
Proof.
  rewrite <- Z.land_assoc, (Z.land_comm (Z.lnot b)), Z.land_lnot_diag.
  apply Z.land_0_r.
Qed.

Lemma land_lnot_testbit a b i :
  Z.testbit (Z.land a (Z.lnot b)) i = Z.testbit a i && negb (Z.testbit b i).
Proof.
  destruct (decide (0 ≤ i)) as [Hi|Hi].
  - by rewrite Z.land_spec, Z.lnot_spec.
  - by rewrite !Z.testbit_neg_r by lia.
Qed.

(** C9.  Called with the slot alone, [saveStateSlot] saves with the flags
    [SAVESTATE_ALL], and [loadStateSlot] loads with flags that have every
    bit of [SAVESTATE_ALL] except the bits of [SAVESTATE_SAVEDATA], of which
    they have none; flags given by the caller are passed on as they are. *)
Theorem state_slot_default_flags (m : M) (slot : Z) :
  saveStateSlot SAVESTATE_ALL mCoreSaveState m [slot]
    = Some (mCoreSaveState m slot SAVESTATE_ALL)
  ∧ (∃ flags,
       loadStateSlot SAVESTATE_ALL SAVESTATE_SAVEDATA mCoreLoadState m [slot]
         = Some (mCoreLoadState m slot flags)
       ∧ flags = Z.land SAVESTATE_ALL (Z.lnot SAVESTATE_SAVEDATA)
       ∧ Z.land flags SAVESTATE_SAVEDATA = 0
       ∧ ∀ i, Z.testbit flags i
              = Z.testbit SAVESTATE_ALL i && negb (Z.testbit SAVESTATE_SAVEDATA i))
  ∧ (∀ flags,
       saveStateSlot SAVESTATE_ALL mCoreSaveState m [slot; flags]
         = Some (mCoreSaveState m slot flags)
       ∧ loadStateSlot SAVESTATE_ALL SAVESTATE_SAVEDATA mCoreLoadState m [slot; flags]
         = Some (mCoreLoadState m slot flags)).
Proof.
  split; [reflexivity|]. split; [|by intros flags].
  exists (Z.land SAVESTATE_ALL (Z.lnot SAVESTATE_SAVEDATA)).
  split; [reflexivity|]. split; [reflexivity|].
  split; [apply land_lnot_disjoint | apply land_lnot_testbit].
Qed.

End SavestateDefaults.

(** With five section bits, of which save data is the second: the default
    load flags are [0b11101]. *)
Example default_load_flags_example :
  loadStateSlot_defaults 31 2 = [None; Some 29].
Proof. reflexivity. Qed.

(* ===================================================================== *)
(** * Part IV: further properties of the code                             *)
(* ===================================================================== *)

(** ** Region adapters on well-formed descriptors *)

Lemma to_int_inj a b :
  U32.in_range a → U32.in_range b → U32.to_int a = U32.to_int b → a = b.
Proof.
  unfold U32.in_range, U32.to_int, U32.modulus. intros Ha Hb.
  repeat case_decide; lia.
Qed.

Lemma div_in_range a size : U32.in_range a → 0 < size → U32.in_range (a / size).
Proof.
  unfold U32.in_range, U32.modulus. intros Ha Hsize. split.
  - apply Z.div_pos; lia.
  - apply Z.div_lt_upper_bound; nia.
Qed.

Section WellFormed.

Context {M : Type}.
Implicit Types (adapter : mScriptMemoryAdapter M) (m : M).

Lemma segmentSize_well_formed adapter :
  block_well_formed (block adapter) →
  0 < segmentSize adapter
  ∧ segmentSize adapter
    = (if decide (segmentStart (block adapter) ≠ 0)
       then end_ (block adapter) - segmentStart (block adapter)
       else end_ (block adapter) - start (block adapter))
  ∧ (segmentStart (block adapter) ≠ 0 →
     prefix adapter = segmentStart (block adapter) - start (block adapter)).
Proof.
  intros ((Hs & He & Hss) & Hlt & Hseg).
  assert (Hraw : U32.sub (end_ (block adapter)) (start (block adapter))
                 = end_ (block adapter) - start (block adapter)).
  { apply wrap_small. unfold U32.in_range in *. lia. }
  rewrite segmentSize_eq, prefix_eq. simpl. rewrite Hraw.
  case_decide as Hset.
  - specialize (Hseg Hset).
    assert (Hp : U32.sub (segmentStart (block adapter)) (start (block adapter))
                 = segmentStart (block adapter) - start (block adapter)).
    { apply wrap_small. unfold U32.in_range in *. lia. }
    rewrite Hp. unfold U32.sub. rewrite wrap_small by (unfold U32.in_range in *; lia).
    repeat split; lia.
  - repeat split; [lia | done].
Qed.

Lemma translate_well_formed adapter address :
  block_well_formed (block adapter) →
  translate adapter address
  = Some ((if decide (segmentStart (block adapter) ≠ 0
                      ∧ U32.to_int (address / segmentSize adapter) ≠ 0)
           then segmentStart (block adapter) else start (block adapter))
          + address mod segmentSize adapter,
          U32.to_int (address / segmentSize adapter)).
Proof.
  intros Hwf. destruct (segmentSize_well_formed adapter Hwf) as (Hpos & Hsize & Hprefix).
  destruct Hwf as ((Hs & He & Hss) & Hlt & Hseg).
  pose proof (Z.mod_pos_bound address (segmentSize adapter) Hpos) as Hr.
  rewrite translate_eq. rewrite decide_False by lia. cbn zeta.
  assert (Hbase : U32.add (address mod segmentSize adapter) (start (block adapter))
                  = start (block adapter) + address mod segmentSize adapter).
  { unfold U32.add. rewrite Z.add_comm. apply wrap_small.
    revert Hsize. case_decide as Hset; intros Hsize;
      [specialize (Hseg Hset)|]; unfold U32.in_range in *; lia. }
  rewrite Hbase.
  destruct (decide (segmentStart (block adapter) ≠ 0
                    ∧ U32.to_int (address / segmentSize adapter) ≠ 0))
    as [Hbank|Hbank]; [|done].
  destruct Hbank as [Hset _]. specialize (Hseg Hset). rewrite (Hprefix Hset).
  rewrite decide_True in Hsize by done.
  do 2 f_equal. unfold U32.add.
  replace (start (block adapter) + address mod segmentSize adapter
           + (segmentStart (block adapter) - start (block adapter)))
    with (segmentStart (block adapter) + address mod segmentSize adapter) by lia.
  apply wrap_small. unfold U32.in_range in *. lia.
Qed.

(** X1.  On a well-formed descriptor every offset resolves, and the physical
    address it resolves to lies in [[start, end)]; in a bank other than 0 of
    a region with a banked part it lies in [[segmentStart, end)]. *)
Theorem translate_within_region adapter address :
  block_well_formed (block adapter) →
  ∃ physical bank,
    translate adapter address = Some (physical, bank)
    ∧ start (block adapter) ≤ physical < end_ (block adapter)
    ∧ (segmentStart (block adapter) ≠ 0 → bank ≠ 0 →
         segmentStart (block adapter) ≤ physical).
Proof.
  intros Hwf. rewrite (translate_well_formed adapter address Hwf).
  destruct (segmentSize_well_formed adapter Hwf) as (Hpos & Hsize & _).
  destruct Hwf as (_ & Hlt & Hseg).
  pose proof (Z.mod_pos_bound address (segmentSize adapter) Hpos) as Hr.
  eexists _, _. split; [reflexivity|].
  revert Hsize. case_decide as Hset; intros Hsize.
  - specialize (Hseg Hset). split.
    + case_decide; lia.
    + intros _ Hbank. rewrite decide_True by done. lia.
  - split; [|done]. rewrite decide_False by (by intros [? _]). lia.
Qed.

(** X2.  On a well-formed descriptor two different 32-bit offsets never
    resolve to the same physical address in the same bank. *)
Theorem translate_injective adapter address1 address2 :
  block_well_formed (block adapter) →
  U32.in_range address1 → U32.in_range address2 →
  address1 ≠ address2 →
  translate adapter address1 ≠ translate adapter address2.
Proof.
  intros Hwf H1 H2 Hne. contradict Hne. revert Hne.
  rewrite !(translate_well_formed adapter _ Hwf).
  destruct (segmentSize_well_formed adapter Hwf) as (Hpos & _ & _).
  intros [= Hphys Hbank].
  apply to_int_inj in Hbank; [|by apply div_in_range..].
  rewrite Hbank in Hphys.
  assert (Hmod : address1 mod segmentSize adapter = address2 mod segmentSize adapter).
  { revert Hphys. case_decide; lia. }
  rewrite (Z.div_mod address1 (segmentSize adapter)),
    (Z.div_mod address2 (segmentSize adapter)) by lia.
  by rewrite Hbank, Hmod.
Qed.

(** X3.  The bank index handed to the raw accessor is the C [int] that
    [address / segmentSize] converts to: it is that quotient, and not
    negative, as long as the quotient is below [2^31], which it always is
    when the segment size is at least 2; a larger quotient (segment size 1,
    offset from [2^31] on) arrives as the negative number
    [quotient - 2^32]. *)
Theorem bank_index_conversion adapter address :
  segmentSize adapter ≠ 0 →
  U32.in_range address →
  ∃ physical bank,
    translate adapter address = Some (physical, bank)
    ∧ (address / segmentSize adapter < 2 ^ 31 →
         bank = address / segmentSize adapter ∧ 0 ≤ bank)
    ∧ (2 ^ 31 ≤ address / segmentSize adapter →
         bank = address / segmentSize adapter - 2 ^ 32 ∧ bank < 0)
    ∧ (2 ≤ segmentSize adapter → bank = address / segmentSize adapter).
Proof.
  intros Hnz Haddr.
  pose proof (segmentSize_in_range adapter) as Hsz.
  assert (Hpos : 0 < segmentSize adapter) by (unfold U32.in_range in Hsz; lia).
  pose proof (div_in_range address _ Haddr Hpos) as Hq.
  assert (Hbank : ∃ physical,
    translate adapter address = Some (physical, U32.to_int (address / segmentSize adapter))).
  { rewrite translate_eq, decide_False by done. cbn zeta. case_decide; by eexists. }
  destruct Hbank as [physical Htr].
  exists physical, (U32.to_int (address / segmentSize adapter)).
  split; [exact Htr|].
  unfold U32.to_int, U32.in_range, U32.modulus in *.
  split; [|split].
  - intros Hlow. rewrite decide_True by done. lia.
  - intros Hhigh. rewrite decide_False by lia. lia.
  - intros Htwo. rewrite decide_True; [done|].
    apply Z.div_lt_upper_bound; lia.
Qed.

(** *** Ranges compose *)

Lemma readRange_loop_acc adapter m n : ∀ address values,
  readRange_loop adapter m (CALCULATE_SEGMENT_INFO adapter) n address values
  = (values ++.) <$> readRange_loop adapter m (CALCULATE_SEGMENT_INFO adapter) n address [].
Proof.
  induction n as [|n IH]; intros address values; simpl.
  - by rewrite app_nil_r.
  - destruct (CALCULATE_SEGMENT_ADDRESS _ _ _) as [[sa seg]|]; [|done]. simpl.
    rewrite IH, (IH _ [_]).
    destruct (readRange_loop _ _ _ _ _ []) as [l|]; [|done]. simpl.
    by rewrite <- app_assoc.
Qed.

Lemma readRange_loop_app adapter m n k : ∀ address,
  U32.in_range address →
  readRange_loop adapter m (CALCULATE_SEGMENT_INFO adapter) (n + k) address []
  = l1 ← readRange_loop adapter m (CALCULATE_SEGMENT_INFO adapter) n address [];
    l2 ← readRange_loop adapter m (CALCULATE_SEGMENT_INFO adapter) k
           (U32.wrap (address + Z.of_nat n)) [];
    Some (l1 ++ l2).
Proof.
  induction n as [|n IH]; intros address Haddr.
  - simpl. rewrite Z.add_0_r, wrap_small by done.
    by destruct (readRange_loop _ _ _ _ _ _).
  - cbn [Nat.add readRange_loop].
    destruct (CALCULATE_SEGMENT_ADDRESS _ _ _) as [[sa seg]|]; [|done]. simpl.
    rewrite (readRange_loop_acc _ _ (n + k)), (readRange_loop_acc _ _ n).
    rewrite IH by apply wrap_in_range.
    replace (U32.wrap (U32.add address 1 + Z.of_nat n))
      with (U32.wrap (address + Z.of_nat (S n))).
    2:{ unfold U32.add, U32.wrap. rewrite Zplus_mod_idemp_l. f_equal. lia. }
    destruct (readRange_loop _ _ _ n _ []) as [l1|]; [|done]. simpl.
    by destruct (readRange_loop _ _ _ k _ []) as [l2|].
Qed.

(** X4.  A range read of [n + k] bytes is the range read of [n] bytes
    followed by the range read of [k] bytes at the offset [address + n]
    (a [uint32_t], so wrapping at [2^32]); either is undefined when one of
    the parts is. *)
Theorem readRange_app adapter m address n k :
  U32.in_range address → 0 ≤ n → 0 ≤ k →
  mScriptMemoryAdapterReadRange adapter m address (n + k)
  = l1 ← mScriptMemoryAdapterReadRange adapter m address n;
    l2 ← mScriptMemoryAdapterReadRange adapter m (U32.wrap (address + n)) k;
    Some (l1 ++ l2).
Proof.
  intros Haddr Hn Hk. unfold mScriptMemoryAdapterReadRange. cbn zeta.
  rewrite Z2Nat.inj_add by done.
  rewrite readRange_loop_app by done.
  by rewrite Z2Nat.id by done.
Qed.

End WellFormed.

(** X1 on the banked example region. *)
Lemma translate_within_region_witness :
  ∃ physical bank,
    translate example_adapter 0x2000 = Some (physical, bank)
    ∧ 0 ≤ physical < 0x4000.
Proof.
  destruct (translate_within_region example_adapter 0x2000)
    as (physical & bank & Htr & Hin & _).
  - split; [repeat split; by vm_compute|].
    split; [by vm_compute|]. intros _. split; by vm_compute.
  - exists physical, bank. split; [exact Htr | exact Hin].
Defined.

(** X2 on the banked example region: the first byte of bank 0 and the first
    byte of bank 1. *)
Lemma translate_injective_witness :
  translate example_adapter 0 ≠ translate example_adapter 0x2000.
Proof.
  apply (translate_injective example_adapter 0 0x2000).
  - split; [repeat split; by vm_compute|].
    split; [by vm_compute|]. intros _. split; by vm_compute.
  - split; by vm_compute.
  - split; by vm_compute.
  - by vm_compute.
Defined.

(** X3 on a region of one byte: the offset [2^31] arrives in a negative
    bank. *)
Lemma bank_index_conversion_witness :
  ∃ physical bank,
    translate (MkMemoryAdapter Banked.machine (MkBlock "byte" 0 1 0)) (2 ^ 31)
      = Some (physical, bank)
    ∧ bank < 0.
Proof.
  destruct (bank_index_conversion
              (MkMemoryAdapter Banked.machine (MkBlock "byte" 0 1 0)) (2 ^ 31))
    as (physical & bank & Htr & _ & Hhigh & _).
  - by vm_compute.
  - split; by vm_compute.
  - exists physical, bank. split; [exact Htr|]. apply Hhigh. by vm_compute.
Defined.

(** X4 on the banked example region, across the bank boundary. *)
Lemma readRange_app_witness :
  mScriptMemoryAdapterReadRange example_adapter Banked.sample 0x1FFE 4
  = Some ([0; 0x41] ++ [0x42; 0]).
Proof.
  change 4 with (2 + 2).
  rewrite (readRange_app example_adapter Banked.sample 0x1FFE 2 2).
  - by vm_compute.
  - split; by vm_compute.
  - lia.
  - lia.
Defined.

(** ** More on the bridge *)

Section ScanOrder.

Context {World VFile : Type}.
Implicit Types (h : Host World VFile) (se : mScriptEngine World VFile).
Implicit Types (l : list (string * mScriptEngine World VFile)).
Implicit Types (tr : list (Event VFile)).




(** *** Engines without state *)

Lemma tryLoad_step_success key se (si : mScriptInfo VFile) h w0 :
  stateless se (info_name si) (info_vf si) →
  info_success (_seTryLoad key se (si, h)).1
  = info_success si || accepts_in se (info_name si) (info_vf si) w0.
Proof.
  intros Hst. unfold _seTryLoad, call_isScript, call_loadScript, accepts_in.
  destruct (info_success si) eqn:E; simpl; [done|].
  destruct (Hst (world h) w0) as [H1 _]. rewrite <- H1.
  destruct (isScript se _ _ (world h)) as [[|] w]; simpl; [|done].
  destruct (Hst w w0) as [_ H2]. rewrite <- H2.
  by destruct (loadScript se _ _ w) as [? ?].
Qed.

Lemma tryLoad_stateless l : ∀ (si : mScriptInfo VFile) h w0,
  (∀ key se, (key, se) ∈ l → stateless se (info_name si) (info_vf si)) →
  info_success (HashTableEnumerate l _seTryLoad (si, h)).1
  = info_success si
    || existsb (λ e, accepts_in e.2 (info_name si) (info_vf si) w0) l.
Proof.
  induction l as [|[key se] l IH]; intros si h w0 Hst.
  { simpl. by rewrite orb_false_r. }
  rewrite HashTableEnumerate_cons.
  pose proof (tryLoad_step_success key se si h w0
                (Hst key se (list_elem_of_here _ _))) as Hstep.
  pose proof (tryLoad_step_fields key se si h) as [Hn Hv].
  destruct (_seTryLoad key se (si, h)) as [si' h']. simpl in Hstep, Hn, Hv.
  rewrite (IH si' h' w0).
  - rewrite Hstep, Hn, Hv. cbn [existsb snd]. by rewrite orb_assoc.
  - intros k e Hin. rewrite Hn, Hv. apply (Hst k). by apply list_elem_of_further.
Qed.

Lemma existsb_Permutation {A} (f : A → bool) (l1 l2 : list A) :
  l1 ≡ₚ l2 → existsb f l1 = existsb f l2.
Proof.
  induction 1 as [|x l1 l2 _ IH|x y l|l1 l2 l3 _ IH1 _ IH2]; simpl.
  - done.
  - by rewrite IH.
  - by rewrite !orb_assoc, (orb_comm (f y)).
  - by rewrite IH1.
Qed.

(** X7.  When the answers of the engines about a script do not depend on the
    state of the world, [loadScript] on a script that opens returns whether
    some engine of the table answers true to both [isScript] and
    [loadScript], and so returns the same for every order of the table. *)
Theorem loadScript_stateless (fs : Vfs World VFile)
    (sb : mScriptBridge World VFile) (name : string) h vf w :
  VFileOpen fs name (world h) = (Some vf, w) →
  (∀ key se, (key, se) ∈ engines sb → stateless se name vf) →
  (mScriptBridgeLoadScript fs sb name h).1
    = existsb (λ e, accepts_in e.2 name vf (world h)) (engines sb)
  ∧ ∀ (sb' : mScriptBridge World VFile) h0 w0,
      engines sb' ≡ₚ engines sb →
      VFileOpen fs name (world h0) = (Some vf, w0) →
      (mScriptBridgeLoadScript fs sb' name h0).1
      = (mScriptBridgeLoadScript fs sb name h).1.
Proof.
  intros Hopen Hst.
  assert (Hres : ∀ (sb' : mScriptBridge World VFile) h0 w0,
    engines sb' ≡ₚ engines sb →
    VFileOpen fs name (world h0) = (Some vf, w0) →
    (mScriptBridgeLoadScript fs sb' name h0).1
    = existsb (λ e, accepts_in e.2 name vf (world h)) (engines sb)).
  { intros sb' h0 w0 Hperm Hopen0. unfold mScriptBridgeLoadScript. rewrite Hopen0.
    pose proof (tryLoad_stateless (engines sb') (MkInfo name vf false)
                  (MkHost w0 (trace h0)) (world h)) as Hs.
    destruct (HashTableEnumerate _ _ _) as [info h1]. simpl in *.
    rewrite Hs; [by apply existsb_Permutation|].
    intros key se Hin. apply (Hst key). by rewrite <- Hperm. }
  split.
  - by apply (Hres sb h w).
  - intros sb' h0 w0 Hperm Hopen0.
    by rewrite (Hres sb' h0 w0), (Hres sb h w).
Qed.

End ScanOrder.


(** X7 on two engines without state, in both orders. *)
Lemma loadScript_stateless_witness :
  (mScriptBridgeLoadScript Toy.fs
     (MkBridge [("B", Toy.eager 7); ("A", Toy.deaf)]) "a.lua" Toy.boot).1
  = (mScriptBridgeLoadScript Toy.fs
       (MkBridge [("A", Toy.deaf); ("B", Toy.eager 7)]) "a.lua" Toy.boot).1.
Proof.
  destruct (loadScript_stateless Toy.fs
              (MkBridge [("A", Toy.deaf); ("B", Toy.eager 7)]) "a.lua" Toy.boot
              "a.lua" [] eq_refl) as [_ Hperm].
  - intros key se Hin.
    apply elem_of_cons in Hin as [[= -> ->]|Hin]; [by intros w w'|].
    apply elem_of_cons in Hin as [[= -> ->]|Hin]; [by intros w w'|].
    by apply elem_of_nil in Hin.
  - apply (Hperm (MkBridge [("B", Toy.eager 7); ("A", Toy.deaf)]) Toy.boot []).
    + apply perm_swap.
    + reflexivity.
Defined.


(** ** Run, the debugger notification and the debugger of a bridge *)

Section FanOut.

Context {World Reason Info : Type}.
Implicit Types (engines : list (string * mScriptEngineRun World Reason Info)).

Lemma run_fold engines : ∀ (w : World) (log : list (RunEvent Reason Info)),
  mScriptBridgeRun engines (w, log)
  = (foldl (λ w e, run e.2 w) w engines, log ++ (EvRun <$> engines.*1)).
Proof.
  unfold mScriptBridgeRun.
  induction engines as [|[key se] engines IH]; intros w log.
  - simpl. by rewrite app_nil_r.
  - rewrite HashTableEnumerate_cons. unfold _seRun at 2. simpl.
    rewrite IH. by rewrite <- app_assoc.
Qed.

Lemma debuggerEntered_fold engines reason info :
  ∀ (w : World) (log : list (RunEvent Reason Info)),
  mScriptBridgeDebuggerEntered engines reason info (w, log)
  = (foldl (λ w e, debuggerEntered e.2 reason info w) w engines,
     log ++ ((λ key, EvDebuggerEntered key reason info) <$> engines.*1)).
Proof.
  unfold mScriptBridgeDebuggerEntered. cbn zeta.
  induction engines as [|[key se] engines IH]; intros w log.
  - simpl. by rewrite app_nil_r.
  - rewrite HashTableEnumerate_cons. unfold _seDebuggerEnter at 2. simpl.
    rewrite IH. by rewrite <- app_assoc.
Qed.

(** X8.  [run] calls the [run] hook of every engine of the table, once each
    and in the order of the table, whatever the hooks do to the world (there
    is no early exit); the debugger notification does the same with
    [debuggerEntered], handing every engine the same reason and info. *)
Theorem run_reaches_every_engine engines (w : World)
    (log : list (RunEvent Reason Info)) :
  mScriptBridgeRun engines (w, log)
  = (foldl (λ w e, run e.2 w) w engines, log ++ (EvRun <$> engines.*1))
  ∧ ∀ reason info,
      mScriptBridgeDebuggerEntered engines reason info (w, log)
      = (foldl (λ w e, debuggerEntered e.2 reason info w) w engines,
         log ++ ((λ key, EvDebuggerEntered key reason info) <$> engines.*1)).
Proof.
  split; [apply run_fold|]. intros reason info. apply debuggerEntered_fold.
Qed.

End FanOut.

(** X9.  Setting the debugger of a bridge that agrees with the debuggers:
    [getDebugger] then returns it; the bridge and the debuggers agree again,
    so the new debugger points back at the bridge and the one it replaces no
    longer does; the debuggers of other bridges are as before; and setting
    the same debugger again changes nothing. *)
Theorem setDebugger_links (sb : nat) (debugger : option nat) (links : DebuggerLinks) :
  linked sb links →
  let links' := mScriptBridgeSetDebugger sb debugger links in
  mScriptBridgeGetDebugger sb links' = debugger
  ∧ linked sb links'
  ∧ (∀ d, debugger = Some d → debugger_bridge links' !! d = Some sb)
  ∧ (∀ old, mScriptBridgeGetDebugger sb links = Some old → debugger ≠ Some old →
       debugger_bridge links' !! old = None)
  ∧ (∀ sb', sb' ≠ sb →
       mScriptBridgeGetDebugger sb' links' = mScriptBridgeGetDebugger sb' links)
  ∧ mScriptBridgeSetDebugger sb debugger links' = links'.
Proof.
  intros Hlinked links'. subst links'.
  unfold mScriptBridgeSetDebugger, mScriptBridgeGetDebugger.
  destruct (decide (bridge_debugger links !! sb = debugger)) as [Heq|Hne].
  { rewrite decide_True by done. repeat split; try done; try apply Hlinked.
    - intros d ->. by apply Hlinked.
    - intros old Hold Hother. congruence. }
  destruct links as [bd db]. unfold linked in *. simpl in *.
  destruct (bd !! sb) as [old|] eqn:Hold; destruct debugger as [d|]; simpl;
    try done.
  - assert (d ≠ old) by congruence.
    rewrite lookup_insert_eq, decide_True by done.
    split; [done|]. split.
    { intros d'. split.
      - intros [= <-]. by rewrite lookup_insert_eq.
      - rewrite lookup_insert. case_decide as Hd; [by intros; subst|].
        rewrite lookup_delete. case_decide; [done|].
        intros Hin. apply Hlinked in Hin. congruence. }
    split; [intros ? [= <-]; by rewrite lookup_insert_eq|].
    split.
    { intros ? [= <-] _. rewrite lookup_insert_ne by done. apply lookup_delete_eq. }
    split; [|done]. intros sb' Hsb. by rewrite lookup_insert_ne.
  - rewrite lookup_delete_eq, decide_True by done.
    split; [done|]. split.
    { intros d'. split; [done|].
      rewrite lookup_delete. case_decide; [done|].
      intros Hin. apply Hlinked in Hin. congruence. }
    split; [done|]. split; [intros ? [= <-] _; apply lookup_delete_eq|].
    split; [|done]. intros sb' Hsb. by rewrite lookup_delete_ne.
  - rewrite lookup_insert_eq, decide_True by done.
    split; [done|]. split.
    { intros d'. split.
      - intros [= <-]. by rewrite lookup_insert_eq.
      - rewrite lookup_insert. case_decide as Hd; [by intros; subst|].
        intros Hin. apply Hlinked in Hin. congruence. }
    split; [intros ? [= <-]; by rewrite lookup_insert_eq|].
    split; [done|].
    split; [|done]. intros sb' Hsb. by rewrite lookup_insert_ne.
Qed.

(** X9 on a bridge [1] with debugger [7], given the debugger [8]. *)
Lemma setDebugger_links_witness :
  mScriptBridgeGetDebugger 1%nat
    (mScriptBridgeSetDebugger 1%nat (Some 8%nat)
       (MkLinks {[1%nat := 7%nat]} {[7%nat := 1%nat]})) = Some 8%nat
  ∧ debugger_bridge
      (mScriptBridgeSetDebugger 1%nat (Some 8%nat)
         (MkLinks {[1%nat := 7%nat]} {[7%nat := 1%nat]})) !! 7%nat = None.
Proof.
  destruct (setDebugger_links 1%nat (Some 8%nat)
              (MkLinks {[1%nat := 7%nat]} {[7%nat := 1%nat]}))
    as (Hget & _ & _ & Hold & _).
  - intros d. simpl. rewrite lookup_singleton_eq. split.
    + intros [= <-]. apply lookup_singleton_eq.
    + intros Hd. destruct (decide (d = 7%nat)) as [->|Hne]; [done|].
      by rewrite lookup_singleton_ne in Hd.
  - split; [exact Hget|]. apply Hold; [reflexivity | done].
Defined.

(** X10.  A debugger that is the debugger of one bridge and is set on
    another: it then points at the second bridge, while the first bridge
    still points at it, so the first bridge and the debuggers no longer
    agree. *)
Theorem setDebugger_leaves_other_bridge (sb1 sb2 d : nat) (links : DebuggerLinks) :
  sb1 ≠ sb2 →
  mScriptBridgeGetDebugger sb2 links = Some d →
  mScriptBridgeGetDebugger sb1 links ≠ Some d →
  let links' := mScriptBridgeSetDebugger sb1 (Some d) links in
  mScriptBridgeGetDebugger sb1 links' = Some d
  ∧ mScriptBridgeGetDebugger sb2 links' = Some d
  ∧ debugger_bridge links' !! d = Some sb1
  ∧ ¬ linked sb2 links'.
Proof.
  intros Hsb Hget2 Hget1 links'. subst links'.
  unfold mScriptBridgeSetDebugger, mScriptBridgeGetDebugger in *.
  rewrite decide_False by done.
  assert (Hres : ∀ links0,
    bridge_debugger links0 = bridge_debugger links →
    let links' := MkLinks (<[sb1 := d]> (bridge_debugger links0))
                          (<[d := sb1]> (debugger_bridge links0)) in
    bridge_debugger links' !! sb1 = Some d
    ∧ bridge_debugger links' !! sb2 = Some d
    ∧ debugger_bridge links' !! d = Some sb1
    ∧ ¬ linked sb2 links').
  { intros links0 Hbd. simpl. rewrite Hbd.
    rewrite lookup_insert_eq, lookup_insert_ne, lookup_insert_eq by done.
    repeat split; try done.
    intros Hl. specialize (Hl d). simpl in Hl.
    rewrite lookup_insert_ne, lookup_insert_eq in Hl by done.
    apply Hl in Hget2. congruence. }
  destruct (bridge_debugger links !! sb1) as [old|].
  - by apply (Hres (MkLinks (bridge_debugger links) (delete old (debugger_bridge links)))).
  - by apply (Hres links).
Qed.

(** X10 with the debugger [7] of the bridge [2] set on the bridge [1]. *)
Lemma setDebugger_leaves_other_bridge_witness :
  mScriptBridgeGetDebugger 2%nat
    (mScriptBridgeSetDebugger 1%nat (Some 7%nat)
       (MkLinks {[2%nat := 7%nat]} {[7%nat := 2%nat]})) = Some 7%nat
  ∧ debugger_bridge
      (mScriptBridgeSetDebugger 1%nat (Some 7%nat)
         (MkLinks {[2%nat := 7%nat]} {[7%nat := 2%nat]})) !! 7%nat = Some 1%nat.
Proof.
  destruct (setDebugger_leaves_other_bridge 1%nat 2%nat 7%nat
              (MkLinks {[2%nat := 7%nat]} {[7%nat := 2%nat]}))
    as (_ & Hget2 & Hback & _).
  - lia.
  - by vm_compute.
  - by vm_compute.
  - split; [exact Hget2 | exact Hback].
Defined.

Example run_example :
  mScriptBridgeRun [("a", counting); ("b", counting); ("c", counting)] (0%nat, [])
  = (3%nat, [EvRun "a"; EvRun "b"; EvRun "c"]).
Proof. reflexivity. Qed.

(** ** More on the memory map *)

Section MemoryMapLifecycle.

Context {M : Type}.
Implicit Types (context : mScriptContext M) (adapter : mScriptCoreAdapter M).

Lemma keep_entries (entries : list (string * N)) : ∀ context,
  foldl (λ context (entry : string * N),
           if false then mScriptContextClearWeakref context entry.2 else context)
        context entries = context.
Proof. induction entries as [|entry entries IH]; intros context; [done | apply IH]. Qed.

(** X11.  Clearing the memory map without invalidation, as the teardown of
    the adapter does, empties the table and leaves the context as it is:
    every weak reference resolves as before, the handles of the map
    included. *)
Theorem clear_without_invalidation context adapter :
  _clearMemoryMap context adapter false
    = (context, MkCoreAdapter (adapter_core adapter) ∅)
  ∧ _mScriptCoreAdapterDeinit context adapter = context
  ∧ ∀ weakref,
      mScriptContextAccessWeakref (_mScriptCoreAdapterDeinit context adapter) weakref
      = mScriptContextAccessWeakref context weakref.
Proof.
  assert (Hclear : _clearMemoryMap context adapter false
                   = (context, MkCoreAdapter (adapter_core adapter) ∅)).
  { unfold _clearMemoryMap. cbn zeta. by rewrite keep_entries. }
  unfold _mScriptCoreAdapterDeinit. rewrite Hclear. by repeat split.
Qed.

Lemma rebuild_unfold (m : M) context adapter :
  _rebuildMemoryMap m context adapter
  = foldl rebuild_step
      ((_clearMemoryMap context adapter true).1,
       MkCoreAdapter (adapter_core adapter) ∅)
      (listMemoryBlocks (adapter_core adapter) m).
Proof.
  unfold _rebuildMemoryMap.
  destruct (clearMemoryMap_invalidates context adapter) as (Hmap & _).
  destruct (_clearMemoryMap context adapter true) as [context1 adapter1].
  simpl in *. by subst adapter1.
Qed.

Lemma rebuild_resolves (m : M) context adapter :
  let rebuilt := _rebuildMemoryMap m context adapter in
  adapter_core rebuilt.2 = adapter_core adapter
  ∧ (nextWeakref context ≤ nextWeakref rebuilt.1)%N
  ∧ (∀ name weakref, memory rebuilt.2 !! name = Some weakref →
       (nextWeakref context ≤ weakref < nextWeakref rebuilt.1)%N)
  ∧ (∀ name, resolve_region rebuilt.1 rebuilt.2 name
       = (λ b, VMemoryAdapter (MkMemoryAdapter (adapter_core adapter) b))
           <$> last (filter (λ b, internalName b = name)
                       (listMemoryBlocks (adapter_core adapter) m))).
Proof.
  cbn zeta. rewrite rebuild_unfold.
  destruct (clearMemoryMap_invalidates context adapter) as (_ & Hnext & _).
  destruct (rebuild_loop (adapter_core adapter) (_clearMemoryMap context adapter true).1
              (listMemoryBlocks (adapter_core adapter) m))
    as (Hcore & Hle & _ & Hrange & _ & Hres).
  cbn zeta in *. rewrite Hnext in Hle, Hrange.
  split; [exact Hcore|]. split; [exact Hle|]. split; [exact Hrange | exact Hres].
Qed.

(** X12.  A second rebuild of the memory map on the same machine state shows
    the scripts what the first did: every region name resolves to the same
    adapter after both, through a handle that is new each time. *)
Theorem rebuild_twice (m : M) context adapter :
  let first := _rebuildMemoryMap m context adapter in
  let second := _rebuildMemoryMap m first.1 first.2 in
  (∀ name, resolve_region second.1 second.2 name
           = resolve_region first.1 first.2 name)
  ∧ (∀ name weakref1 weakref2,
       memory first.2 !! name = Some weakref1 →
       memory second.2 !! name = Some weakref2 →
       (weakref1 < weakref2)%N).
Proof.
  cbn zeta.
  destruct (rebuild_resolves m context adapter) as (Hcore1 & _ & Hrange1 & Hres1).
  destruct (rebuild_resolves m (_rebuildMemoryMap m context adapter).1
              (_rebuildMemoryMap m context adapter).2)
    as (_ & _ & Hrange2 & Hres2).
  cbn zeta in *. split.
  - intros name. rewrite Hres2, Hres1. by rewrite Hcore1.
  - intros name weakref1 weakref2 H1 H2.
    apply Hrange1 in H1. apply Hrange2 in H2. lia.
Qed.

(** The handles a rebuild loop issues, and who holds them. *)
Lemma rebuild_loop_arena (core0 : mCore M) context0 (blocks : list mCoreMemoryBlock) :
  let built := foldl rebuild_step (context0, MkCoreAdapter core0 ∅) blocks in
  (∀ i, (nextWeakref built.1 ≤ i)%N →
     weakrefs built.1 !! i = weakrefs context0 !! i)
  ∧ (NoDup (internalName <$> blocks) →
     ∀ i, (nextWeakref context0 ≤ i < nextWeakref built.1)%N →
       ∃ name, memory built.2 !! name = Some i).
Proof.
  induction blocks as [|b blocks IH] using rev_ind; cbn zeta.
  - simpl. split; [done|]. intros _ i Hi. lia.
  - pose proof (rebuild_loop core0 context0 blocks) as (_ & Hle & _ & _ & Hdom & _).
    rewrite foldl_snoc. cbn zeta in *.
    destruct (foldl rebuild_step (context0, MkCoreAdapter core0 ∅) blocks)
      as [context adapter].
    simpl in *. destruct IH as [Hbeyond Hheld].
    unfold rebuild_step. simpl. split.
    + intros i Hi. rewrite lookup_insert_ne by lia. apply Hbeyond. lia.
    + rewrite fmap_app. intros Hnodup i Hi.
      apply NoDup_app in Hnodup as (Hnodup & Hfresh & _).
      destruct (decide (i = nextWeakref context)) as [->|Hne].
      * exists (internalName b). apply lookup_insert_eq.
      * destruct (Hheld Hnodup i) as [name Hname]; [lia|].
        exists name. rewrite lookup_insert_ne; [done|].
        intros <-.
        assert (Hin : internalName b ∈ internalName <$> blocks).
        { apply (elem_of_list_to_set (C := gset string)).
          rewrite <- Hdom. apply elem_of_dom. by eexists. }
        apply (Hfresh _ Hin), list_elem_of_here.
Qed.

(** X13.  A memory map built for a new adapter from descriptors with
    pairwise different names, then cleared with invalidation: the arena
    holds what it held before the build, so nothing the build issued is left
    behind. *)
Theorem rebuild_then_clear (m : M) context adapter :
  memory adapter = ∅ →
  arena_issued context →
  NoDup (internalName <$> listMemoryBlocks (adapter_core adapter) m) →
  let built := _rebuildMemoryMap m context adapter in
  weakrefs (_clearMemoryMap built.1 built.2 true).1 = weakrefs context.
Proof.
  intros Hempty Hissued Hnodup. cbn zeta. rewrite rebuild_unfold.
  set (blocks := listMemoryBlocks (adapter_core adapter) m) in *.
  assert (Hctx : (_clearMemoryMap context adapter true).1 = context).
  { unfold _clearMemoryMap. rewrite Hempty, map_to_list_empty. done. }
  rewrite Hctx.
  destruct (rebuild_loop (adapter_core adapter) context blocks)
    as (_ & Hle & Hold & Hrange & _ & _).
  destruct (rebuild_loop_arena (adapter_core adapter) context blocks)
    as (Hbeyond & Hheld).
  specialize (Hheld Hnodup).
  destruct (foldl rebuild_step (context, MkCoreAdapter (adapter_core adapter) ∅) blocks)
    as [context1 adapter1].
  simpl in *.
  destruct (clearMemoryMap_invalidates context1 adapter1) as (_ & _ & Hdead & Hkept).
  cbn zeta in *. unfold mScriptContextAccessWeakref in *.
  apply map_eq. intros i.
  destruct (decide (i < nextWeakref context)%N) as [Hlow|Hhigh].
  - rewrite Hkept; [by apply Hold|].
    intros name Hin. apply Hrange in Hin. lia.
  - assert (Hnone : weakrefs context !! i = None).
    { destruct (weakrefs context !! i) eqn:E; [|done].
      assert (i < nextWeakref context)%N by (apply Hissued; by eexists). lia. }
    rewrite Hnone.
    destruct (decide (i < nextWeakref context1)%N) as [Hmid|Hbey].
    + destruct (Hheld i) as [name Hname]; [lia|]. by eapply Hdead.
    + rewrite Hkept.
      * rewrite Hbeyond by lia. exact Hnone.
      * intros name Hin. apply Hrange in Hin. lia.
Qed.

End MemoryMapLifecycle.

(** X12 on the example machine: attached, then reloaded. *)
Lemma rebuild_twice_witness :
  resolve_region reloaded.1 reloaded.2 "wram"
  = resolve_region attached.1 attached.2 "wram"
  ∧ (1 < 3)%N.
Proof.
  destruct (rebuild_twice ∅ (MkContext ∅ 0%N) (MkCoreAdapter Banked.machine ∅))
    as [Hsame Hnew].
  split.
  - apply (Hsame "wram").
  - apply (Hnew "wram"); by vm_compute.
Defined.

(** X13 on the example machine, attached in an empty context. *)
Lemma rebuild_then_clear_witness :
  weakrefs (_clearMemoryMap attached.1 attached.2 true).1 = ∅.
Proof.
  apply (rebuild_then_clear ∅ (MkContext ∅ 0%N) (MkCoreAdapter Banked.machine ∅)).
  - reflexivity.
  - intros weakref [value Hin]. simpl in Hin. by rewrite lookup_empty in Hin.
  - change (NoDup ["cart0"; "wram"]).
    apply NoDup_cons. split; [|apply NoDup_singleton].
    intros Hin. apply list_elem_of_singleton in Hin. discriminate Hin.
Defined.

(** ** Range reads on the bus *)

Section BusRange.

Context {M : Type}.
Implicit Types (core : mCoreBus M) (m : M).

Lemma coreReadRange_loop_acc core n : ∀ address values m,
  coreReadRange_loop core n address values m
  = ((values ++ (coreReadRange_loop core n address [] m).1),
     (coreReadRange_loop core n address [] m).2).
Proof.
  induction n as [|n IH]; intros address values m; simpl.
  - by rewrite app_nil_r.
  - destruct (busRead8 core m address) as [value m1].
    rewrite IH, (IH _ [value]). simpl. by rewrite <- app_assoc.
Qed.

Lemma coreReadRange_loop_app core n k : ∀ address m,
  U32.in_range address →
  coreReadRange_loop core (n + k) address [] m
  = let '(l1, m1) := coreReadRange_loop core n address [] m in
    let '(l2, m2) :=
      coreReadRange_loop core k (U32.wrap (address + Z.of_nat n)) [] m1 in
    (l1 ++ l2, m2).
Proof.
  induction n as [|n IH]; intros address m Haddr.
  - simpl. rewrite Z.add_0_r, wrap_small by done.
    by destruct (coreReadRange_loop core k address [] m).
  - cbn [Nat.add coreReadRange_loop].
    destruct (busRead8 core m address) as [value m1]. simpl.
    rewrite (coreReadRange_loop_acc _ (n + k)), (coreReadRange_loop_acc _ n).
    rewrite IH by apply wrap_in_range.
    replace (U32.wrap (U32.add address 1 + Z.of_nat n))
      with (U32.wrap (address + Z.of_nat (S n))).
    2:{ unfold U32.add, U32.wrap. rewrite Zplus_mod_idemp_l. f_equal. lia. }
    destruct (coreReadRange_loop core n _ [] m1) as [l1 m2]. simpl.
    by destruct (coreReadRange_loop core k _ [] m2) as [l2 m3].
Qed.

Lemma coreReadRange_loop_length core n : ∀ address values m,
  length (coreReadRange_loop core n address values m).1 = (length values + n)%nat.
Proof.
  induction n as [|n IH]; intros address values m; simpl; [lia|].
  destruct (busRead8 core m address) as [value m1].
  rewrite IH, length_app. simpl. lia.
Qed.

(** X14.  The range read of the machine object returns exactly [length]
    values; a read of [n + k] bytes is the read of [n] bytes followed, on
    the machine as the first part left it, by the read of [k] bytes at
    [address + n] (a [uint32_t] that wraps at [2^32]). *)
Theorem coreReadRange_app core m address n k :
  U32.in_range address → 0 ≤ n → 0 ≤ k →
  length (_mScriptCoreReadRange core m address (n + k)).1 = Z.to_nat (n + k)
  ∧ _mScriptCoreReadRange core m address (n + k)
    = let '(l1, m1) := _mScriptCoreReadRange core m address n in
      let '(l2, m2) := _mScriptCoreReadRange core m1 (U32.wrap (address + n)) k in
      (l1 ++ l2, m2).
Proof.
  intros Haddr Hn Hk. unfold _mScriptCoreReadRange. split.
  - by rewrite coreReadRange_loop_length.
  - rewrite Z2Nat.inj_add by done.
    rewrite coreReadRange_loop_app by done.
    by rewrite Z2Nat.id by done.
Qed.

End BusRange.

(** X14 on the counting bus, across the end of the address space. *)
Lemma coreReadRange_app_witness :
  _mScriptCoreReadRange counting_bus 0 0xFFFFFFFF 3
  = ([0xFFFFFFFF] ++ [1; 3], 3).
Proof.
  change 3 with (1 + 2) at 1.
  rewrite (proj2 (coreReadRange_app counting_bus 0 0xFFFFFFFF 1 2
                    ltac:(split; by vm_compute) ltac:(lia) ltac:(lia))).
  by vm_compute.
Defined.

(** ** The rectangle of the display *)

Module DisplayFacts.

Import Display.

Lemma checked_Some x : Int.in_range x → Int.checked x = Some x.
Proof. intros Hx. unfold Int.checked. by rewrite decide_True. Qed.

Lemma mul_small a b :
  0 ≤ a ≤ 32767 → 0 ≤ b ≤ 32767 → Int.mul a b = Some (a * b).
Proof.
  intros Ha Hb. apply checked_Some. unfold Int.in_range.
  change (2 ^ 31) with 2147483648. nia.
Qed.

Lemma div_small a b :
  0 ≤ a < 2147483648 → 0 < b → Int.div a b = Some (a / b).
Proof.
  intros Ha Hb. unfold Int.div. rewrite decide_False by lia.
  rewrite Z.quot_div_nonneg by lia. apply checked_Some.
  assert (0 ≤ a / b) by (apply Z.div_pos; lia).
  assert (a / b ≤ a) by (apply Z.div_le_upper_bound; nia).
  unfold Int.in_range. change (2 ^ 31) with 2147483648. lia.
Qed.

Lemma rem_small a b :
  0 ≤ a → 0 < b → Int.rem a b = Some (a mod b).
Proof.
  intros Ha Hb. unfold Int.rem. rewrite decide_False by lia.
  rewrite decide_False by (intros [_ ?]; lia). by rewrite Z.rem_mod_nonneg by lia.
Qed.

Lemma sub_small a b :
  0 ≤ a < 2147483648 → 0 ≤ b < 2147483648 → Int.sub a b = Some (a - b).
Proof.
  intros Ha Hb. apply checked_Some. unfold Int.in_range.
  change (2 ^ 31) with 2147483648. lia.
Qed.

(** The aspect-ratio block on a viewport that is the widget. *)
Lemma lock_aspect_spec mw mh s :
  frame_ok mw mh → size_ok s →
  lock_aspect mw mh s s
  = Some (if decide (height s * mw < width s * mh)
          then MkSize (height s * mw / mh) (height s)
          else if decide (width s * mh < height s * mw)
               then MkSize (width s) (width s * mh / mw)
               else s).
Proof.
  intros [Hw Hh] [Hsw Hsh]. unfold lock_aspect.
  rewrite !mul_small by lia. simpl.
  repeat case_decide; try done.
  - rewrite div_small by nia. done.
  - rewrite div_small by nia. done.
Qed.

Lemma lock_aspect_inside mw mh s ds :
  frame_ok mw mh → size_ok s →
  lock_aspect mw mh s s = Some ds →
  0 ≤ width ds ≤ width s ∧ 0 ≤ height ds ≤ height s.
Proof.
  intros Hf Hs. rewrite lock_aspect_spec by done.
  destruct Hf as [Hw Hh], Hs as [Hsw Hsh].
  intros [= <-]. repeat case_decide; simpl.
  - pose proof (Z.div_pos (height s * mw) mh).
    assert (height s * mw / mh < width s) by (apply Z.div_lt_upper_bound; nia).
    nia.
  - pose proof (Z.div_pos (width s * mh) mw).
    assert (width s * mh / mw < height s) by (apply Z.div_lt_upper_bound; nia).
    nia.
  - lia.
Qed.

Lemma round_down a b :
  0 ≤ a ≤ 32767 → 0 < b →
  Int.rem a b = Some (a mod b) ∧ Int.sub a (a mod b) = Some (b * (a / b)).
Proof.
  intros Ha Hb. split; [apply rem_small; lia|].
  pose proof (Z.mod_pos_bound a b Hb).
  assert (a mod b ≤ a) by (apply Z.mod_le; lia).
  rewrite sub_small by lia. f_equal. pose proof (Z.div_mod a b). lia.
Qed.

Lemma lock_integer_spec mw mh ds :
  frame_ok mw mh → size_ok ds →
  lock_integer mw mh ds
  = Some (MkSize (if decide (mw ≤ width ds) then mw * (width ds / mw) else width ds)
                 (if decide (mh ≤ height ds) then mh * (height ds / mh) else height ds)).
Proof.
  intros [Hw Hh] [Hsw Hsh]. unfold lock_integer.
  destruct (round_down (width ds) mw Hsw ltac:(lia)) as [Hrw Hsubw].
  destruct (round_down (height ds) mh Hsh ltac:(lia)) as [Hrh Hsubh].
  destruct ds as [w h]. simpl in *.
  destruct (decide (mw ≤ w)); simpl.
  - rewrite Hrw. simpl. rewrite Hsubw. simpl.
    destruct (decide (mh ≤ h)); simpl; [|done].
    rewrite Hrh. simpl. by rewrite Hsubh.
  - destruct (decide (mh ≤ h)); simpl; [|done].
    rewrite Hrh. simpl. by rewrite Hsubh.
Qed.

Lemma lock_integer_inside mw mh ds ds' :
  frame_ok mw mh → size_ok ds →
  lock_integer mw mh ds = Some ds' →
  0 ≤ width ds' ≤ width ds ∧ 0 ≤ height ds' ≤ height ds.
Proof.
  intros Hf Hs. rewrite lock_integer_spec by done.
  destruct Hf as [Hw Hh], Hs as [Hsw Hsh]. intros [= <-]. simpl.
  pose proof (Z.mul_div_le (width ds) mw). pose proof (Z.mul_div_le (height ds) mh).
  pose proof (Z.div_pos (width ds) mw). pose proof (Z.div_pos (height ds) mh).
  repeat case_decide; nia.
Qed.

Lemma centre_spec s ds :
  size_ok s → 0 ≤ width ds ≤ width s → 0 ≤ height ds ≤ height s →
  centre s ds
  = Some (MkPoint ((width s - width ds) / 2) ((height s - height ds) / 2)).
Proof.
  intros [Hsw Hsh] Hw Hh. unfold centre.
  rewrite sub_small by lia. simpl. rewrite div_small by lia. simpl.
  rewrite sub_small by lia. simpl. by rewrite div_small by lia.
Qed.

(** X15.  Whatever the two locks, with the viewport being the widget, the
    rectangle the frame is drawn into lies inside the widget and is centred
    in it: in each direction the margin before it is the margin after it, or
    one pixel less. *)
Theorem full_inside_and_centred mw mh (aspect integer : bool) s :
  frame_ok mw mh → size_ok s →
  ∃ origin ds,
    paintEvent_full mw mh aspect integer s s = Some (origin, ds)
    ∧ 0 ≤ x origin ∧ 0 ≤ y origin
    ∧ 0 ≤ width ds ∧ 0 ≤ height ds
    ∧ x origin ≤ width s - (x origin + width ds) ≤ x origin + 1
    ∧ y origin ≤ height s - (y origin + height ds) ≤ y origin + 1.
Proof.
  intros Hf Hs. unfold paintEvent_full. cbn zeta.
  assert (H1 : ∃ ds1, (if aspect then lock_aspect mw mh s s else Some s) = Some ds1
                      ∧ 0 ≤ width ds1 ≤ width s ∧ 0 ≤ height ds1 ≤ height s).
  { destruct aspect.
    - rewrite lock_aspect_spec by done. eexists. split; [done|].
      eapply lock_aspect_inside; [done..|]. by apply lock_aspect_spec.
    - exists s. destruct Hs. split; [done|]. lia. }
  destruct H1 as (ds1 & -> & Hw1 & Hh1). simpl.
  assert (Hs1 : size_ok ds1) by (destruct Hs; split; lia).
  assert (H2 : ∃ ds2, (if integer then lock_integer mw mh ds1 else Some ds1) = Some ds2
                      ∧ 0 ≤ width ds2 ≤ width ds1 ∧ 0 ≤ height ds2 ≤ height ds1).
  { destruct integer.
    - rewrite lock_integer_spec by done. eexists. split; [done|].
      eapply lock_integer_inside; [done..|]. by apply lock_integer_spec.
    - exists ds1. split; [done|]. lia. }
  destruct H2 as (ds2 & -> & Hw2 & Hh2). simpl.
  rewrite centre_spec by (done || lia). simpl.
  eexists _, _. split; [done|]. simpl.
  pose proof (Z.div_mod (width s - width ds2) 2).
  pose proof (Z.mod_pos_bound (width s - width ds2) 2).
  pose proof (Z.div_mod (height s - height ds2) 2).
  pose proof (Z.mod_pos_bound (height s - height ds2) 2).
  lia.
Qed.

(** X16.  With the aspect ratio locked alone and the viewport being the
    widget, the drawn size spans the widget in at least one direction, and
    its ratio is the frame's up to the rounding of one division:
    [|width * m_height - height * m_width|] is below the larger frame
    dimension. *)
Theorem aspect_locked_size mw mh s :
  frame_ok mw mh → size_ok s →
  ∃ origin ds,
    paintEvent_full mw mh true false s s = Some (origin, ds)
    ∧ (width ds = width s ∨ height ds = height s)
    ∧ Z.abs (width ds * mh - height ds * mw) < Z.max mw mh.
Proof.
  intros Hf Hs. unfold paintEvent_full. cbn zeta.
  pose proof (lock_aspect_inside mw mh s _ Hf Hs (lock_aspect_spec mw mh s Hf Hs))
    as [Hw Hh].
  rewrite lock_aspect_spec by done. simpl.
  rewrite centre_spec by done. simpl.
  eexists _, _. split; [done|].
  destruct Hf as [Hmw Hmh], Hs as [Hsw Hsh].
  repeat case_decide; simpl.
  - split; [by right|].
    pose proof (Z.div_mod (height s * mw) mh).
    pose proof (Z.mod_pos_bound (height s * mw) mh). lia.
  - split; [by left|].
    pose proof (Z.div_mod (width s * mh) mw).
    pose proof (Z.mod_pos_bound (width s * mh) mw). lia.
  - split; [by left|]. lia.
Qed.

Lemma scale_floor a mw mh :
  0 ≤ a → 0 < mw → 0 < mh → a * mw / mh / mw = a / mh.
Proof.
  intros Ha Hw Hh. rewrite Z.div_div by lia.
  by rewrite Z.div_mul_cancel_r by lia.
Qed.

(** X17.  With both locks, the viewport being the widget and the widget at
    least as large as the frame, the frame is drawn at the largest whole
    scale at which it fits the widget: the size is [k * m_width] by
    [k * m_height] for [k] the smaller of [width / m_width] and
    [height / m_height]. *)
Theorem both_locks_largest_scale mw mh s :
  frame_ok mw mh → size_ok s →
  mw ≤ width s → mh ≤ height s →
  let k := Z.min (width s / mw) (height s / mh) in
  1 ≤ k
  ∧ ∃ origin,
      paintEvent_full mw mh true true s s = Some (origin, MkSize (k * mw) (k * mh)).
Proof.
  intros Hf Hs Hfw Hfh k.
  assert (Hk : 1 ≤ k).
  { subst k. destruct Hf as [Hmw Hmh].
    apply Z.min_glb; apply Z.div_le_lower_bound; lia. }
  split; [done|].
  unfold paintEvent_full. cbn zeta.
  pose proof (lock_aspect_inside mw mh s _ Hf Hs (lock_aspect_spec mw mh s Hf Hs))
    as [Hw1 Hh1].
  rewrite lock_aspect_spec by done. cbn [mbind option_bind].
  set (ds1 := if decide (height s * mw < width s * mh) then _ else _) in *.
  assert (Hs1 : size_ok ds1) by (destruct Hs; split; lia).
  pose proof (lock_integer_inside mw mh ds1 _ Hf Hs1 (lock_integer_spec mw mh ds1 Hf Hs1))
    as [Hw2 Hh2].
  rewrite lock_integer_spec by done. cbn [mbind option_bind].
  rewrite centre_spec by (done || lia). cbn [mbind option_bind].
  eexists. do 2 f_equal.
  destruct Hf as [Hmw Hmh], Hs as [Hsw Hsh].
  subst ds1 k.
  destruct (decide (height s * mw < width s * mh)) as [Hwide|Hnot]; simpl.
  - assert (Hq : height s * mw / mh / mw = height s / mh) by (apply scale_floor; lia).
    assert (Hge : mw ≤ height s * mw / mh).
    { apply Z.div_le_lower_bound; nia. }
    rewrite !decide_True by lia. rewrite Hq.
    assert (Hmin : height s / mh ≤ width s / mw).
    { apply Z.div_le_lower_bound; [lia|].
      pose proof (Z.mul_div_le (height s) mh). nia. }
    rewrite Z.min_r by done. f_equal; lia.
  - destruct (decide (width s * mh < height s * mw)) as [Htall|Heq]; simpl.
    + assert (Hq : width s * mh / mw / mh = width s / mw) by (apply scale_floor; lia).
      assert (Hge : mh ≤ width s * mh / mw).
      { apply Z.div_le_lower_bound; nia. }
      rewrite !decide_True by lia. rewrite Hq.
      assert (Hmin : width s / mw ≤ height s / mh).
      { apply Z.div_le_lower_bound; [lia|].
        pose proof (Z.mul_div_le (width s) mw). nia. }
      rewrite Z.min_l by done. f_equal; lia.
    + rewrite !decide_True by lia.
      assert (Hsame : width s / mw = height s / mh).
      { apply Z.le_antisymm; apply Z.div_le_lower_bound; try lia.
        - pose proof (Z.mul_div_le (width s) mw). nia.
        - pose proof (Z.mul_div_le (height s) mh). nia. }
      rewrite <- Hsame, Z.min_id. f_equal; lia.
Qed.

(** X18.  Frame dimensions of zero: the aspect-ratio block never divides by
    zero (the branch that divides by a dimension is taken only when that
    dimension is positive), while the integer-scaling block takes the
    remainder by each frame dimension the viewport reaches, and so divides
    by zero as soon as one of them is zero. *)
Theorem zero_frame_dimension mw mh s :
  size_ok s → 0 ≤ mw ≤ 32767 → 0 ≤ mh ≤ 32767 →
  is_Some (paintEvent_full mw mh true false s s)
  ∧ ((mw = 0 ∨ mh = 0) →
     ∀ aspect, paintEvent_full mw mh aspect true s s = None).
Proof.
  intros [Hsw Hsh] Hmw Hmh.
  assert (Haspect : ∃ ds, lock_aspect mw mh s s = Some ds
                          ∧ 0 ≤ width ds ≤ width s ∧ 0 ≤ height ds ≤ height s).
  { unfold lock_aspect. rewrite !mul_small by lia. simpl.
    destruct (decide (height s * mw < width s * mh)) as [Hwide|Hnot].
    - rewrite div_small by nia. simpl. eexists. split; [done|]. simpl.
      assert (0 ≤ height s * mw / mh) by (apply Z.div_pos; nia).
      assert (height s * mw / mh < width s) by (apply Z.div_lt_upper_bound; nia).
      lia.
    - destruct (decide (width s * mh < height s * mw)) as [Htall|Heq].
      + rewrite div_small by nia. simpl. eexists. split; [done|]. simpl.
        assert (0 ≤ width s * mh / mw) by (apply Z.div_pos; nia).
        assert (width s * mh / mw < height s) by (apply Z.div_lt_upper_bound; nia).
        lia.
      + exists s. split; [done|]. lia. }
  destruct Haspect as (ds1 & Hds1 & Hw1 & Hh1).
  split.
  - unfold paintEvent_full. cbn zeta. rewrite Hds1. simpl.
    rewrite centre_spec by (done || lia). by eexists.
  - intros Hzero aspect. unfold paintEvent_full. cbn zeta.
    assert (Hint : ∀ ds, 0 ≤ width ds ≤ 32767 → 0 ≤ height ds ≤ 32767 →
                         lock_integer mw mh ds = None).
    { intros ds Hw Hh. unfold lock_integer.
      destruct (decide (mw = 0)) as [->|Hnz].
      - rewrite decide_True by lia. unfold Int.rem. by rewrite decide_True.
      - assert (mh = 0) as -> by lia.
        destruct (decide (mw ≤ width ds)); simpl.
        + destruct (round_down (width ds) mw Hw ltac:(lia)) as [-> Hsub]. simpl.
          rewrite Hsub. simpl. by rewrite decide_True by lia.
        + by rewrite decide_True by lia. }
    destruct aspect.
    + rewrite Hds1. simpl. rewrite Hint by lia. done.
    + simpl. rewrite Hint by lia. done.
Qed.

End DisplayFacts.

(** X15 for a frame of 240 by 160 in a widget of 500 by 301, aspect ratio
    locked. *)
Lemma full_inside_and_centred_witness :
  ∃ origin ds,
    Display.paintEvent_full 240 160 true false
      (Display.MkSize 500 301) (Display.MkSize 500 301) = Some (origin, ds)
    ∧ 0 ≤ Display.x origin ∧ 0 ≤ Display.y origin.
Proof.
  destruct (DisplayFacts.full_inside_and_centred 240 160 true false
              (Display.MkSize 500 301))
    as (origin & ds & Hrun & Hx & Hy & _).
  - split; lia.
  - split; simpl; lia.
  - exists origin, ds. split; [exact Hrun|]. split; [exact Hx | exact Hy].
Defined.

(** X16 for the same frame and widget. *)
Lemma aspect_locked_size_witness :
  ∃ origin ds,
    Display.paintEvent_full 240 160 true false
      (Display.MkSize 500 301) (Display.MkSize 500 301) = Some (origin, ds)
    ∧ (Display.width ds = 500 ∨ Display.height ds = 301).
Proof.
  destruct (DisplayFacts.aspect_locked_size 240 160 (Display.MkSize 500 301))
    as (origin & ds & Hrun & Hspan & _).
  - split; lia.
  - split; simpl; lia.
  - exists origin, ds. split; [exact Hrun | exact Hspan].
Defined.

(** X17 for the same frame and widget: the frame is drawn at scale 1. *)
Lemma both_locks_largest_scale_witness :
  ∃ origin,
    Display.paintEvent_full 240 160 true true
      (Display.MkSize 500 301) (Display.MkSize 500 301)
    = Some (origin, Display.MkSize 240 160).
Proof.
  destruct (DisplayFacts.both_locks_largest_scale 240 160 (Display.MkSize 500 301))
    as [_ Hrun].
  - split; lia.
  - split; simpl; lia.
  - simpl. lia.
  - simpl. lia.
  - exact Hrun.
Defined.

(** X18 for a frame whose dimensions are still zero. *)
Lemma zero_frame_dimension_witness :
  Display.paintEvent_full 0 0 false true
    (Display.MkSize 500 301) (Display.MkSize 500 301) = None.
Proof.
  destruct (DisplayFacts.zero_frame_dimension 0 0 (Display.MkSize 500 301))
    as [_ Hnone].
  - split; simpl; lia.
  - lia.
  - lia.
  - apply Hnone. by left.
Defined.
